(** * Great Hammerhead age proxy: the notebook's pipeline, embedded and verified

    The notebook [Great_Hammerhead_Shark_Age_Calculation.ipynb] computes a
    Von Bertalanffy age proxy from fork length and sex, and corrects it with
    a line fitted on two vertebral-aged females.

    Numbers.  The notebook computes with IEEE doubles (numpy [float64] and
    Python [float]).  Here a double is an extended real: a finite real, one
    of the two infinities, or NaN.  Rounding, overflow, underflow and the
    sign of zero are not represented; every "within tolerance" statement
    below is therefore about the exact value of the same expression. *)

From Stdlib Require Import Reals Lra Lia ZArith List String Bool.
From Stdlib Require Import Permutation.
Import ListNotations.
Open Scope R_scope.

(** ** numpy scalars *)

Module Np.

Inductive npfloat : Type :=
| Fin (r : R)
| PInf
| NInf
| NaN.

(** Floating-point events numpy can report ([np.seterr] categories). *)
Inductive fperr : Type := FPdivide | FPover | FPunder | FPinvalid.

Definition fperr_eqb (a b : fperr) : bool :=
  match a, b with
  | FPdivide, FPdivide | FPover, FPover
  | FPunder, FPunder | FPinvalid, FPinvalid => true
  | _, _ => false
  end.

(** [x / c], [c - x], [c * x], [x * c], [x - c] with [c] a finite literal of
    the source.  Every divisor and factor that occurs in the notebook is a
    non-zero literal, so none of these operations reports an event. *)
Definition div_c (x : npfloat) (c : R) : npfloat :=
  match x with
  | Fin r => Fin (r / c)
  | PInf => if Rlt_dec 0 c then PInf else NInf
  | NInf => if Rlt_dec 0 c then NInf else PInf
  | NaN => NaN
  end.

Definition c_sub (c : R) (x : npfloat) : npfloat :=
  match x with
  | Fin r => Fin (c - r)
  | PInf => NInf
  | NInf => PInf
  | NaN => NaN
  end.

Definition mul_c (x : npfloat) (c : R) : npfloat :=
  match x with
  | Fin r => Fin (r * c)
  | PInf => if Rlt_dec 0 c then PInf else NInf
  | NInf => if Rlt_dec 0 c then NInf else PInf
  | NaN => NaN
  end.

Definition c_mul (c : R) (x : npfloat) : npfloat :=
  match x with
  | Fin r => Fin (c * r)
  | PInf => if Rlt_dec 0 c then PInf else NInf
  | NInf => if Rlt_dec 0 c then NInf else PInf
  | NaN => NaN
  end.

Definition sub_c (x : npfloat) (c : R) : npfloat :=
  match x with
  | Fin r => Fin (r - c)
  | other => other
  end.

(** [np.log]: the logarithm of zero is [-inf] and reports [divide]; the
    logarithm of a negative number is NaN and reports [invalid]. *)
Definition log (x : npfloat) : npfloat * list fperr :=
  match x with
  | Fin r =>
      if Rlt_dec 0 r then (Fin (ln r), [])
      else if Req_dec_T r 0 then (NInf, [FPdivide])
      else (NaN, [FPinvalid])
  | PInf => (PInf, [])
  | NInf => (NaN, [FPinvalid])
  | NaN => (NaN, [])
  end.

(** [x <= c]: false whenever [x] is NaN. *)
Definition le_c (x : npfloat) (c : R) : bool :=
  match x with
  | Fin r => if Rle_dec r c then true else false
  | PInf => false
  | NInf => true
  | NaN => false
  end.

Definition isinf (x : npfloat) : bool :=
  match x with PInf | NInf => true | _ => false end.

Definition isnan (x : npfloat) : bool :=
  match x with NaN => true | _ => false end.

Definition isfinite (x : npfloat) : bool :=
  match x with Fin _ => true | _ => false end.

(** [with np.errstate(cat='ignore', ...)]: the events of the listed
    categories raised inside the block are dropped, the others surface. *)
Definition errstate (ignore : list fperr) (events : list fperr) : list fperr :=
  filter (fun e => negb (existsb (fperr_eqb e) ignore)) events.

End Np.

Import Np.

(** ** The Von Bertalanffy functions (cell "Define Von Bertalanffy Function") *)

(** The body shared, word for word, by [calculate_male_age] and
    [calculate_female_age]; the result is the returned value together with
    the floating-point events that leave the [with] block.  The notebook
    never passes [L8], [b] or [k]: they are the defaults below, none of
    them zero. *)
Definition vb_body (Lt : npfloat) (L8 b k : R) : npfloat * list fperr :=
  let '(lg, events) := Np.log (c_mul (1 / b) (c_sub 1 (div_c Lt L8))) in
  let Age := div_c lg (- k) in
  (if le_c Age 0 || isinf Age || isnan Age then NaN else Age,
   errstate [FPdivide; FPinvalid] events).

Definition calculate_male_age (Lt : npfloat)
  (L8 := 264.2) (b := 50) (k := 0.16) : npfloat * list fperr :=
  vb_body Lt L8 b k.

Definition calculate_female_age (Lt : npfloat)
  (L8 := 323.9) (b := 50) (k := 0.11) : npfloat * list fperr :=
  vb_body Lt L8 b k.

(** ** Python outcomes *)

Inductive pyexn : Type :=
| KeyError (key : string)
| TypeError
| ValueError.

Inductive outcome (A : Type) : Type :=
| Returned (a : A)
| Raised (e : pyexn).

Arguments Returned {A} a.
Arguments Raised {A} e.

Definition bind {A B : Type} (m : outcome A) (f : A -> outcome B) : outcome B :=
  match m with
  | Returned a => f a
  | Raised e => Raised e
  end.

Notation "x <- m ;; k" := (bind m (fun x => k))
  (at level 61, m at next level, right associativity).

Fixpoint mapM {A B : Type} (f : A -> outcome B) (l : list A) : outcome (list B) :=
  match l with
  | [] => Returned []
  | a :: rest => b <- f a ;; bs <- mapM f rest ;; Returned (b :: bs)
  end.

(** ** The specimen table (a pandas DataFrame read from a CSV file) *)

(** A cell read from the file is a number (NaN when the field is empty) or
    text. *)
Inductive cell : Type :=
| Num (x : npfloat)
| Str (s : string).

Definition Series : Type := list cell.

(** Columns in file order, each with its values in row order. *)
Definition DataFrame : Type := list (string * Series).

(** A row handed to the function of [DataFrame.apply(..., axis=1)]. *)
Definition Row : Type := list (string * cell).

Definition columns (df : DataFrame) : list string := map fst df.

Definition has_column (df : DataFrame) (c : string) : bool :=
  existsb (String.eqb c) (columns df).

Fixpoint assoc {V : Type} (c : string) (l : list (string * V)) : option V :=
  match l with
  | [] => None
  | (c', v) :: rest => if String.eqb c c' then Some v else assoc c rest
  end.

(** [df[c]] and [row[c]]: a missing label raises [KeyError]. *)
Definition getitem {V : Type} (l : list (string * V)) (c : string) : outcome V :=
  match assoc c l with
  | Some v => Returned v
  | None => Raised (KeyError c)
  end.

(** [df[c] = s]: replaces the column when it exists, appends it otherwise. *)
Fixpoint setitem (df : DataFrame) (c : string) (s : Series) : DataFrame :=
  match df with
  | [] => [(c, s)]
  | (c', s') :: rest =>
      if String.eqb c c' then (c', s) :: rest else (c', s') :: setitem rest c s
  end.

Definition nrows (df : DataFrame) : nat :=
  match df with
  | [] => O
  | (_, s) :: _ => List.length s
  end.

Definition iloc (df : DataFrame) (i : nat) : Row :=
  map (fun cs : string * Series => (fst cs, nth i (snd cs) (Num NaN))) df.

(** Arithmetic between a column and a float literal, cell by cell; text
    cells make Python raise [TypeError]. *)
Definition series_map (f : npfloat -> npfloat) (s : Series) : outcome Series :=
  mapM (fun c => match c with
                 | Num x => Returned (Num (f x))
                 | Str _ => Raised TypeError
                 end) s.

Definition series_sub (s : Series) (c : R) : outcome Series :=
  series_map (fun x => sub_c x c) s.

Definition series_div (s : Series) (c : R) : outcome Series :=
  series_map (fun x => div_c x c) s.

(** [df.apply(f, axis=1)] on a table with at least one row calls [f] on
    every row in order; an exception of [f] leaves [apply].  (On a table
    without rows pandas does not run [f]; the model returns the empty
    column there, and nothing below depends on that case.) *)
Definition apply_rows (f : Row -> outcome npfloat) (df : DataFrame)
  : outcome Series :=
  mapM (fun i => x <- f (iloc df i) ;; Returned (Num x)) (seq 0 (nrows df)).

(** ** Cell "Impute Missing Fork Length Values" *)

Definition impute_fork_length (Adult_specimens : DataFrame) : outcome DataFrame :=
  if negb (has_column Adult_specimens "FL (mm)") then
    tl <- getitem Adult_specimens "TL (mm)" ;;
    d <- series_sub tl 3.472 ;;
    fl <- series_div d 1.2533 ;;
    Returned (setitem Adult_specimens "FL (mm)" fl)
  else Returned Adult_specimens.

(** ** The wrapper [calculate_age] *)

Definition cell_eq_str (c : cell) (s : string) : bool :=
  match c with
  | Str s' => String.eqb s' s
  | Num _ => false
  end.

(** Calling a VB function on a cell: text in [Lt / L8] raises [TypeError]. *)
Definition call_vb (f : npfloat -> npfloat * list fperr) (c : cell)
  : outcome npfloat :=
  match c with
  | Num x => Returned (fst (f x))
  | Str _ => Raised TypeError
  end.

Definition calculate_age (row : Row) : outcome npfloat :=
  sx <- getitem row "Sex" ;;
  if cell_eq_str sx "Male" then
    fl <- getitem row "FL (cm)" ;; call_vb calculate_male_age fl
  else
    sx' <- getitem row "Sex" ;;
    if cell_eq_str sx' "Female" then
      fl <- getitem row "FL (cm)" ;; call_vb calculate_female_age fl
    else Returned NaN.

(** ** Cell "Ground Von Bertalanffy Equation With Vertebral Aged GHH" *)

Definition Vertebral_aged_FL : list npfloat := [Fin 292; Fin 243].

Definition Vertebral_vb_estimation : list npfloat :=
  map (fun Lt => fst (calculate_female_age Lt)) Vertebral_aged_FL.

(** Rows of the array are (Vertebral Age, VB Age). *)
Definition Vertebral_vb_array : list (npfloat * npfloat) :=
  [(Fin 16.5, Fin 56.635017); (Fin 11.5, Fin 48.174946)].

Definition rsum (l : list R) : R := fold_right Rplus 0 l.

Definition rmean (l : list R) : R := rsum l / INR (List.length l).

Fixpoint finite_values (l : list npfloat) : option (list R) :=
  match l with
  | [] => Some []
  | Fin r :: rest =>
      match finite_values rest with
      | Some rs => Some (r :: rs)
      | None => None
      end
  | _ :: _ => None
  end.

(** [LinearRegression().fit(X, y)] of scikit-learn for one feature, with
    the default [fit_intercept=True], returning [(coef_[0][0],
    intercept_[0])].  The library rejects an empty array and any NaN or
    infinity with [ValueError]; otherwise it centres both arrays and takes
    the minimum-norm least-squares solution, which is [0] when the centred
    feature vanishes identically.  That test is made here on exact reals:
    on doubles, three or more equal values can leave rounding noise in
    the centred feature, and the slope the library returns is then noise
    as well. *)
Definition LinearRegression_fit (X y : list npfloat) : outcome (R * R) :=
  match finite_values X, finite_values y with
  | Some xs, Some ys =>
      if Nat.eqb (List.length xs) 0 || negb (Nat.eqb (List.length xs) (List.length ys))
      then Raised ValueError
      else
        let xm := rmean xs in
        let ym := rmean ys in
        let sxx := rsum (map (fun x => (x - xm) * (x - xm)) xs) in
        let sxy := rsum (map (fun xy => (fst xy - xm) * (snd xy - ym))
                             (combine xs ys)) in
        let coef := if Req_dec_T sxx 0 then 0 else sxy / sxx in
        Returned (coef, ym - coef * xm)
  | _, _ => Raised ValueError
  end.

(** The regression cell, with the array it is run on as its argument:
    [Vb_age_array] (second column) is the feature, [Vertebral_age_array]
    (first column) the target. *)
Definition fit_correction (array : list (npfloat * npfloat)) : outcome (R * R) :=
  let Vb_age_array := map snd array in
  let Vertebral_age_array := map fst array in
  LinearRegression_fit Vb_age_array Vertebral_age_array.

(** ** Cell "correction coefficient" *)

Definition correction_coefficient (m : npfloat) : npfloat :=
  let Age_correction := sub_c (mul_c m 0.5910115884370238) 16.971951358327846 in
  Age_correction.

(** ** The notebook, cell after cell

    Reading the file and writing the result are left out, and so is the
    prediction [y_pred] of the regression cell, which nothing uses. *)

Definition notebook (Adult_specimens : DataFrame) : outcome DataFrame :=
  df1 <- impute_fork_length Adult_specimens ;;
  ages <- apply_rows calculate_age df1 ;;
  let df2 := setitem df1 "Modified VB Age" ages in
  _ <- fit_correction Vertebral_vb_array ;;
  vb <- getitem df2 "Modified VB Age" ;;
  corrected <- series_map correction_coefficient vb ;;
  Returned (setitem df2 "Age Corrected Proxy" corrected).

(** ** Vocabulary of the specification *)

Inductive sex : Type := Male | Female.

Definition L_inf (s : sex) : R :=
  match s with Male => 264.2 | Female => 323.9 end.

Definition growth_k (s : sex) : R :=
  match s with Male => 0.16 | Female => 0.11 end.

Definition birth_b : R := 50.

Definition vb_age_estimator (s : sex) (FL : npfloat) : npfloat * list fperr :=
  match s with
  | Male => calculate_male_age FL
  | Female => calculate_female_age FL
  end.

(** The closed form of the specification. *)
Definition vb_formula (s : sex) (FL : R) : R :=
  ln ((1 / birth_b) * (1 - FL / L_inf s)) / (- growth_k s).

(** A value handed on as an age: finite and positive, or the marker. *)
Definition is_age_or_missing (x : npfloat) : Prop :=
  x = NaN \/ exists a, x = Fin a /\ 0 < a.

Definition is_numeric (c : cell) : bool :=
  match c with Num _ => true | Str _ => false end.

(** What the Length Normalizer computes from one total length. *)
Definition fork_of_total (tl : npfloat) : npfloat :=
  div_c (sub_c tl 3.472) 1.2533.

(** Two tables used as examples: total length only, and a fork-length
    column with an empty field. *)
Definition total_length_only : DataFrame :=
  [("Sex"%string, [Str "Female"]); ("TL (mm)"%string, [Num (Fin 300)])].

Definition total_length_only_cm : DataFrame :=
  [("Sex"%string, [Str "Female"]); ("TL (cm)"%string, [Num (Fin 300)])].

Definition fork_length_gap : DataFrame :=
  [("Sex"%string, [Str "Female"]);
   ("TL (mm)"%string, [Num (Fin 300)]);
   ("FL (mm)"%string, [Num NaN])].

(** The sums the regression is made of. *)
Definition sq_dev (m : R) (l : list R) : R :=
  rsum (map (fun x => (x - m) * (x - m)) l).

Definition co_dev (mx my : R) (l : list (R * R)) : R :=
  rsum (map (fun xy => (fst xy - mx) * (snd xy - my)) l).

(** A calibration array whose VB ages are all [x]. *)
Definition constant_vb_array (x : R) (vertebral : list R)
  : list (npfloat * npfloat) :=
  map (fun y => (Fin y, Fin x)) vertebral.

(** The argument of the logarithm in the VB functions. *)
Definition log_argument (L8 b FL : R) : R := (1 / b) * (1 - FL / L8).

(** ** Fixed-point enclosures of [exp]

    Integers [m] stand for the reals [m / S].  The enclosures start from
    [1 + t <= exp t <= 1 / (1 - t)] at [t = (num / den) / 2^n] and square
    [n] times, rounding downwards, respectively upwards. *)

Definition sq_dn (S m : Z) : Z := ((m * m) / S)%Z.

Definition sq_up (S m : Z) : Z := ((m * m) / S + 1)%Z.

Fixpoint iter_sq (f : Z -> Z) (n : nat) (m : Z) : Z :=
  match n with
  | O => m
  | Datatypes.S n' => iter_sq f n' (f m)
  end.

Definition exp_below (S : Z) (n : nat) (num den : Z) : Z :=
  let K := (den * 2 ^ Z.of_nat n)%Z in
  iter_sq (sq_dn S) n (S + (num * S) / K)%Z.

Definition exp_above (S : Z) (n : nat) (num den : Z) : Z :=
  let K := (den * 2 ^ Z.of_nat n)%Z in
  iter_sq (sq_up S) n ((S * K) / (K - num) + 1)%Z.

(** Scale and number of squarings used for the figures below. *)
Definition enc_scale : Z := (2 ^ 200)%Z.
Definition enc_steps : nat := 48.

(** ** Further vocabulary: the relations the notebook quotes *)

(** The growth curve of the notebook's text, [L_t = Linf (1 - b e^(-k t))],
    which the VB functions invert. *)
Definition vb_length (s : sex) (t : R) : R :=
  L_inf s * (1 - birth_b * exp (- growth_k s * t)).

(** The length relation of the notebook's text, [TL = 1.2533 FL + 3.472]. *)
Definition total_of_fork (fl : R) : R := 1.2533 * fl + 3.472.

(** A calibration array written from finite points
    (x = VB age, y = vertebral age). *)
Definition reference_array (pts : list (R * R)) : list (npfloat * npfloat) :=
  map (fun xy => (Fin (snd xy), Fin (fst xy))) pts.

(** Sum of the squared residuals of the line [y = slope * x + intercept]. *)
Definition sse (slope intercept : R) (pts : list (R * R)) : R :=
  rsum (map (fun xy => (snd xy - (slope * fst xy + intercept))
                       * (snd xy - (slope * fst xy + intercept))) pts).

(** What [LinearRegression_fit] returns on finite points. *)
Definition ols_line (pts : list (R * R)) : R * R :=
  let xm := rmean (map fst pts) in
  let ym := rmean (map snd pts) in
  let coef := if Req_dec_T (sq_dev xm (map fst pts)) 0 then 0
              else co_dev xm ym pts / sq_dev xm (map fst pts) in
  (coef, ym - coef * xm).

(** A table on which the notebook runs through: it carries the fork
    length under both labels the notebook uses. *)
Definition both_labels : DataFrame :=
  [("Sex"%string, [Str "Female"; Str "Male"; Str "Unknown"]);
   ("FL (mm)"%string, [Num (Fin 292); Num (Fin 300); Num (Fin 250)]);
   ("FL (cm)"%string, [Num (Fin 292); Num (Fin 300); Num (Fin 250)])].

(** * Properties *)

(** ** The Von Bertalanffy body *)

Lemma ln_neg_below_1 (x : R) : 0 < x -> x < 1 -> ln x < 0.
Proof.
  intros H0 H1. rewrite <- ln_1. now apply ln_increasing.
Qed.

Lemma div_neg_pos (a k : R) : a < 0 -> 0 < k -> 0 < a / (- k).
Proof.
  intros Ha Hk.
  replace (a / - k) with ((- a) / k) by (field; lra).
  apply Rdiv_lt_0_compat; lra.
Qed.

Lemma errstate_log_silent (x : npfloat) :
  errstate [FPdivide; FPinvalid] (snd (Np.log x)) = [].
Proof.
  destruct x as [r| | |]; simpl; try reflexivity.
  destruct (Rlt_dec 0 r); [reflexivity|].
  destruct (Req_dec_T r 0); reflexivity.
Qed.

Lemma vb_body_events (Lt : npfloat) (L8 b k : R) :
  snd (vb_body Lt L8 b k) = [].
Proof.
  unfold vb_body.
  pose proof (errstate_log_silent (c_mul (1 / b) (c_sub 1 (div_c Lt L8)))) as H.
  destruct (Np.log _) as [lg ev]; simpl in *. exact H.
Qed.

Lemma vb_body_value (Lt : npfloat) (L8 b k : R) :
  is_age_or_missing (fst (vb_body Lt L8 b k)).
Proof.
  unfold vb_body.
  destruct (Np.log _) as [lg ev]; simpl.
  destruct (div_c lg (- k)) as [a| | |] eqn:E; simpl;
    try (left; reflexivity).
  destruct (Rle_dec a 0); simpl.
  - left; reflexivity.
  - right. exists a. split; [reflexivity | lra].
Qed.

Section VBBody.

Variables L8 b k : R.
Hypothesis L8_pos : 0 < L8.
Hypothesis b_pos : 0 < b.
Hypothesis k_pos : 0 < k.

Lemma log_argument_pos (FL : R) : FL < L8 -> 0 < log_argument L8 b FL.
Proof.
  intros H. unfold log_argument.
  apply Rmult_lt_0_compat.
  - apply Rdiv_lt_0_compat; lra.
  - assert (FL / L8 < 1); [|lra].
    apply (Rmult_lt_reg_r L8); [exact L8_pos|].
    unfold Rdiv. rewrite Rmult_assoc, Rinv_l; lra.
Qed.

Lemma log_argument_nonpos (FL : R) : L8 <= FL -> log_argument L8 b FL <= 0.
Proof.
  intros H. unfold log_argument.
  assert (0 < 1 / b) by (apply Rdiv_lt_0_compat; lra).
  assert (1 <= FL / L8).
  { apply (Rmult_le_reg_r L8); [exact L8_pos|].
    unfold Rdiv. rewrite Rmult_assoc, Rinv_l; lra. }
  assert (1 - FL / L8 <= 0) by lra.
  replace 0 with ((1 / b) * 0) by ring.
  apply Rmult_le_compat_l; lra.
Qed.

Lemma log_argument_below_1 (FL : R) : (1 - b) * L8 < FL -> log_argument L8 b FL < 1.
Proof.
  intros H. unfold log_argument.
  assert (1 - FL / L8 < b).
  { apply (Rmult_lt_reg_r L8); [exact L8_pos|].
    unfold Rdiv. rewrite Rmult_minus_distr_r, Rmult_assoc, Rinv_l; lra. }
  apply (Rmult_lt_reg_l b); [exact b_pos|].
  unfold Rdiv. rewrite <- Rmult_assoc, Rmult_1_l, Rinv_r; lra.
Qed.

Lemma vb_body_closed_form (FL : R) :
  0 < log_argument L8 b FL -> log_argument L8 b FL < 1 ->
  vb_body (Fin FL) L8 b k = (Fin (ln (log_argument L8 b FL) / (- k)), [])
  /\ 0 < ln (log_argument L8 b FL) / (- k).
Proof.
  intros H0 H1.
  assert (Hage : 0 < ln (log_argument L8 b FL) / (- k)).
  { apply div_neg_pos; [|exact k_pos]. now apply ln_neg_below_1. }
  split; [|exact Hage].
  unfold vb_body; simpl. fold (log_argument L8 b FL).
  destruct (Rlt_dec 0 (log_argument L8 b FL)) as [_|n]; [|contradiction].
  simpl.
  destruct (Rle_dec (ln (log_argument L8 b FL) / - k) 0) as [Hle|_]; [lra|].
  reflexivity.
Qed.

Lemma vb_body_beyond_asymptote (FL : R) :
  L8 <= FL -> vb_body (Fin FL) L8 b k = (NaN, []).
Proof.
  intros H. pose proof (log_argument_nonpos FL H) as Hi.
  unfold vb_body; simpl. fold (log_argument L8 b FL).
  destruct (Rlt_dec 0 (log_argument L8 b FL)) as [Hlt|_]; [lra|].
  destruct (Req_dec_T (log_argument L8 b FL) 0) as [_|_]; simpl.
  - destruct (Rlt_dec 0 (- k)); reflexivity.
  - reflexivity.
Qed.

End VBBody.

(** ** Soundness of the enclosures of [exp] *)

Lemma exp_double (t : R) : exp (2 * t) = exp t * exp t.
Proof. replace (2 * t) with (t + t) by ring. apply exp_plus. Qed.

Lemma exp_upper_rational (t : R) : t < 1 -> exp t <= / (1 - t).
Proof.
  intros Ht.
  pose proof (exp_ineq1_le (- t)) as H.
  rewrite exp_Ropp in H.
  pose proof (exp_pos t) as Hp.
  apply (Rmult_le_reg_r (1 - t)); [lra|].
  rewrite Rinv_l by lra.
  apply (Rmult_le_reg_r (/ exp t)); [now apply Rinv_0_lt_compat|].
  rewrite Rmult_1_l.
  replace (exp t * (1 - t) * / exp t) with (1 - t) by (field; lra).
  lra.
Qed.

Lemma div_le_of_le_mul (a s y : R) : 0 < s -> a <= y * s -> a / s <= y.
Proof.
  intros Hs H. apply (Rmult_le_reg_r s); [assumption|].
  replace (a / s * s) with a by (field; lra). assumption.
Qed.

Lemma le_div_of_mul_le (a s y : R) : 0 < s -> y * s <= a -> y <= a / s.
Proof.
  intros Hs H. apply (Rmult_le_reg_r s); [assumption|].
  replace (a / s * s) with a by (field; lra). assumption.
Qed.

Lemma div_lt_of_lt_mul (a s y : R) : 0 < s -> a < y * s -> a / s < y.
Proof.
  intros Hs H. apply (Rmult_lt_reg_r s); [assumption|].
  replace (a / s * s) with a by (field; lra). assumption.
Qed.

Section Enclosure.

Variable S : Z.
Hypothesis S_pos : (0 < S)%Z.

Lemma S_posR : 0 < IZR S.
Proof. now apply IZR_lt. Qed.

Lemma div_floor_le (a d : Z) :
  (0 < d)%Z -> IZR (a / d) <= IZR a / IZR d.
Proof.
  intros Hd. assert (0 < IZR d) by now apply IZR_lt.
  apply le_div_of_mul_le; [assumption|].
  rewrite <- mult_IZR. apply IZR_le.
  rewrite Z.mul_comm. now apply Z.mul_div_le.
Qed.

Lemma div_floor_succ_gt (a d : Z) :
  (0 < d)%Z -> IZR a / IZR d < IZR (a / d + 1).
Proof.
  intros Hd. assert (0 < IZR d) by now apply IZR_lt.
  apply div_lt_of_lt_mul; [assumption|].
  rewrite <- mult_IZR. apply IZR_lt.
  rewrite Z.mul_comm. now apply Z.mul_succ_div_gt.
Qed.

Lemma sq_dn_sound (m : Z) (y : R) :
  (0 <= m)%Z -> IZR m / IZR S <= y ->
  (0 <= sq_dn S m)%Z /\ IZR (sq_dn S m) / IZR S <= y * y.
Proof.
  intros Hm Hy. pose proof S_posR as HS. unfold sq_dn. split.
  - apply Z.div_pos; [apply Z.mul_nonneg_nonneg|]; assumption.
  - assert (0 <= IZR m / IZR S).
    { apply Rmult_le_pos; [now apply IZR_le|].
      left; now apply Rinv_0_lt_compat. }
    apply Rle_trans with ((IZR m / IZR S) * (IZR m / IZR S)).
    + apply div_le_of_le_mul; [exact S_posR|].
      eapply Rle_trans; [apply div_floor_le; exact S_pos|].
      rewrite mult_IZR. right. field. lra.
    + apply Rmult_le_compat; assumption.
Qed.

Lemma sq_up_sound (m : Z) (y : R) :
  0 <= y -> y <= IZR m / IZR S -> y * y <= IZR (sq_up S m) / IZR S.
Proof.
  intros Hy Hm. pose proof S_posR as HS. unfold sq_up.
  apply Rle_trans with ((IZR m / IZR S) * (IZR m / IZR S)).
  - apply Rmult_le_compat; assumption.
  - apply le_div_of_mul_le; [exact S_posR|].
    left. eapply Rle_lt_trans; [|apply div_floor_succ_gt; exact S_pos].
    rewrite mult_IZR. right. field. lra.
Qed.

Lemma iter_sq_dn_sound (n : nat) : forall (m : Z) (t : R),
  (0 <= m)%Z -> IZR m / IZR S <= exp t ->
  IZR (iter_sq (sq_dn S) n m) / IZR S <= exp (t * 2 ^ n).
Proof.
  induction n as [|n IH]; intros m t Hm Ht; simpl.
  - now rewrite Rmult_1_r.
  - destruct (sq_dn_sound m (exp t) Hm Ht) as [Hm' Ht'].
    rewrite <- exp_double in Ht'.
    replace (t * (2 * 2 ^ n)) with (2 * t * 2 ^ n) by ring.
    now apply IH.
Qed.

Lemma iter_sq_up_sound (n : nat) : forall (m : Z) (t : R),
  exp t <= IZR m / IZR S ->
  exp (t * 2 ^ n) <= IZR (iter_sq (sq_up S) n m) / IZR S.
Proof.
  induction n as [|n IH]; intros m t Ht; simpl.
  - now rewrite Rmult_1_r.
  - assert (Hsq := sq_up_sound m (exp t) (Rlt_le _ _ (exp_pos t)) Ht).
    rewrite <- exp_double in Hsq.
    replace (t * (2 * 2 ^ n)) with (2 * t * 2 ^ n) by ring.
    now apply IH.
Qed.

Lemma scaled_argument (n : nat) (num den : Z) :
  (0 < den)%Z ->
  IZR num / IZR (den * 2 ^ Z.of_nat n) * 2 ^ n = IZR num / IZR den.
Proof.
  intros Hd. assert (0 < IZR den) by now apply IZR_lt.
  rewrite mult_IZR, <- pow_IZR.
  assert (0 < 2 ^ n) by (apply pow_lt; lra).
  field. split; lra.
Qed.

Lemma exp_below_sound (n : nat) (num den : Z) :
  (0 < den)%Z ->
  (0 <= S + (num * S) / (den * 2 ^ Z.of_nat n))%Z ->
  IZR (exp_below S n num den) / IZR S <= exp (IZR num / IZR den).
Proof.
  intros Hd Hstart. pose proof S_posR as HS. unfold exp_below.
  set (K := (den * 2 ^ Z.of_nat n)%Z) in *.
  assert (HK : (0 < K)%Z).
  { apply Z.mul_pos_pos; [assumption|].
    apply Z.pow_pos_nonneg; lia. }
  assert (0 < IZR K) by now apply IZR_lt.
  rewrite <- (scaled_argument n num den Hd). fold K.
  apply iter_sq_dn_sound; [assumption|].
  eapply Rle_trans; [|apply exp_ineq1_le].
  rewrite plus_IZR.
  pose proof (div_floor_le (num * S) K HK) as Hfl.
  rewrite mult_IZR in Hfl.
  apply div_le_of_le_mul; [exact S_posR|].
  replace ((1 + IZR num / IZR K) * IZR S)
    with (IZR S + IZR num * IZR S / IZR K) by (field; lra).
  lra.
Qed.

Lemma exp_above_sound (n : nat) (num den : Z) :
  (0 < den)%Z ->
  (num < den * 2 ^ Z.of_nat n)%Z ->
  exp (IZR num / IZR den) <= IZR (exp_above S n num den) / IZR S.
Proof.
  intros Hd Hlt. pose proof S_posR as HS. unfold exp_above.
  set (K := (den * 2 ^ Z.of_nat n)%Z) in *.
  assert (HK : (0 < K)%Z).
  { apply Z.mul_pos_pos; [assumption|].
    apply Z.pow_pos_nonneg; lia. }
  assert (0 < IZR K) by now apply IZR_lt.
  assert (HKn : (0 < K - num)%Z) by lia.
  assert (HKnR : 0 < IZR K - IZR num).
  { rewrite <- minus_IZR. now apply IZR_lt. }
  rewrite <- (scaled_argument n num den Hd). fold K.
  apply iter_sq_up_sound.
  assert (Ht : IZR num / IZR K < 1).
  { apply div_lt_of_lt_mul; [assumption|]. lra. }
  eapply Rle_trans; [apply exp_upper_rational; exact Ht|].
  pose proof (div_floor_succ_gt (S * K) (K - num) HKn) as Hfl.
  rewrite mult_IZR, minus_IZR in Hfl.
  apply le_div_of_mul_le; [exact S_posR|].
  replace (/ (1 - IZR num / IZR K) * IZR S)
    with (IZR S * IZR K / (IZR K - IZR num)) by (field; split; lra).
  lra.
Qed.

End Enclosure.

(** Bounds on [ln q] from the enclosures; [q = a / b], bounds [num / den]. *)

Lemma ln_lower_bound (c q : R) : 0 < q -> exp c <= q -> c <= ln q.
Proof.
  intros Hq H.
  destruct (Rle_or_lt c (ln q)) as [Hle|Hlt]; [assumption|].
  apply exp_increasing in Hlt. rewrite exp_ln in Hlt by assumption. lra.
Qed.

Lemma ln_upper_bound (c q : R) : 0 < q -> q <= exp c -> ln q <= c.
Proof.
  intros Hq H.
  destruct (Rle_or_lt (ln q) c) as [Hle|Hlt]; [assumption|].
  apply exp_increasing in Hlt. rewrite exp_ln in Hlt by assumption. lra.
Qed.

Lemma frac_le (a b c d : Z) :
  (0 < b)%Z -> (0 < d)%Z -> (a * d <= c * b)%Z -> IZR a / IZR b <= IZR c / IZR d.
Proof.
  intros Hb Hd H.
  assert (0 < IZR b) by now apply IZR_lt.
  assert (0 < IZR d) by now apply IZR_lt.
  apply IZR_le in H. rewrite !mult_IZR in H.
  apply (Rmult_le_reg_r (IZR b * IZR d)); [now apply Rmult_lt_0_compat|].
  replace (IZR a / IZR b * (IZR b * IZR d)) with (IZR a * IZR d) by (field; lra).
  replace (IZR c / IZR d * (IZR b * IZR d)) with (IZR c * IZR b) by (field; lra).
  assumption.
Qed.

Lemma ln_enclosure (a b lo hi den : Z) :
  (0 < a)%Z -> (0 < b)%Z -> (0 < den)%Z ->
  (lo < den * 2 ^ Z.of_nat enc_steps)%Z ->
  (0 <= enc_scale + (hi * enc_scale) / (den * 2 ^ Z.of_nat enc_steps))%Z ->
  (exp_above enc_scale enc_steps lo den * b <= a * enc_scale)%Z ->
  (a * enc_scale <= exp_below enc_scale enc_steps hi den * b)%Z ->
  IZR lo / IZR den <= ln (IZR a / IZR b) <= IZR hi / IZR den.
Proof.
  intros Ha Hb Hden Hlo Hhi Habove Hbelow.
  assert (HS : (0 < enc_scale)%Z) by reflexivity.
  assert (Hq : 0 < IZR a / IZR b).
  { apply Rdiv_lt_0_compat; now apply IZR_lt. }
  split.
  - apply ln_lower_bound; [assumption|].
    eapply Rle_trans; [apply (exp_above_sound enc_scale HS enc_steps lo den Hden Hlo)|].
    now apply frac_le.
  - apply ln_upper_bound; [assumption|].
    eapply Rle_trans; [|apply (exp_below_sound enc_scale HS enc_steps hi den Hden Hhi)].
    now apply frac_le.
Qed.

Ltac enclose a b lo hi den :=
  let H := fresh "Henc" in
  assert (H := ln_enclosure a b lo hi den);
  repeat (match type of H with
          | (?P -> _) =>
              let HP := fresh in
              assert (HP : P);
              [ first [ apply Z.ltb_lt; vm_compute; reflexivity
                      | apply Z.leb_le; vm_compute; reflexivity ]
              | specialize (H HP); clear HP ]
          end).

(** The three logarithms behind the figures of the notebook. *)

Lemma ln_female_292 :
  -6.229851924 <= ln (log_argument 323.9 50 292) <= -6.229851816.
Proof.
  replace (log_argument 323.9 50 292) with (IZR 319 / IZR 161950)
    by (unfold log_argument; lra).
  enclose 319%Z 161950%Z (-6229851924)%Z (-6229851816)%Z 1000000000%Z.
  lra.
Qed.

Lemma ln_female_243 :
  -5.299244114 <= ln (log_argument 323.9 50 243) <= -5.299244006.
Proof.
  replace (log_argument 323.9 50 243) with (IZR 809 / IZR 161950)
    by (unfold log_argument; lra).
  enclose 809%Z 161950%Z (-5299244114)%Z (-5299244006)%Z 1000000000%Z.
  lra.
Qed.

Lemma ln_male_0 :
  -3.9127 <= ln (log_argument 264.2 50 0) <= -3.9113.
Proof.
  replace (log_argument 264.2 50 0) with (IZR 1 / IZR 50)
    by (unfold log_argument; lra).
  enclose 1%Z 50%Z (-39127)%Z (-39113)%Z 10000%Z.
  lra.
Qed.

(** ** The VB Age Estimator *)

Lemma L_inf_pos (s : sex) : 0 < L_inf s.
Proof. destruct s; simpl; lra. Qed.

Lemma estimator_is_body (s : sex) (Lt : npfloat) :
  vb_age_estimator s Lt = vb_body Lt (L_inf s) birth_b (growth_k s).
Proof. destruct s; reflexivity. Qed.

Lemma estimator_closed_form (s : sex) (FL : R) :
  -49 * L_inf s < FL -> FL < L_inf s ->
  vb_age_estimator s (Fin FL) = (Fin (vb_formula s FL), [])
  /\ 0 < vb_formula s FL.
Proof.
  intros Hlo Hhi. rewrite estimator_is_body.
  pose proof (L_inf_pos s) as HL.
  assert (Hb : 0 < birth_b) by (unfold birth_b; lra).
  assert (Hk : 0 < growth_k s) by (destruct s; simpl; lra).
  apply (vb_body_closed_form (L_inf s) birth_b (growth_k s) Hk FL).
  - now apply log_argument_pos.
  - apply log_argument_below_1; try assumption. unfold birth_b. lra.
Qed.

(** C1.  For either sex and every fork length strictly between 0 and the
    asymptotic length, the estimator returns the closed form
    [ln((1/b)(1 - FL/Linf)) / (-k)]: a finite, positive age, not the missing
    marker, and no floating-point event leaves the function. *)
Theorem C1_estimator_closed_form (s : sex) (FL : R) :
  0 < FL -> FL < L_inf s ->
  vb_age_estimator s (Fin FL) = (Fin (vb_formula s FL), [])
  /\ 0 < vb_formula s FL
  /\ isnan (fst (vb_age_estimator s (Fin FL))) = false.
Proof.
  intros H0 H1.
  destruct (estimator_closed_form s FL) as [E P]; try assumption.
  - pose proof (L_inf_pos s). lra.
  - rewrite E. repeat split; assumption.
Qed.

Lemma C1_estimator_closed_form_witness :
  vb_age_estimator Female (Fin 292) = (Fin (vb_formula Female 292), [])
  /\ 0 < vb_formula Female 292
  /\ isnan (fst (vb_age_estimator Female (Fin 292))) = false.
Proof.
  apply (C1_estimator_closed_form Female 292); simpl; lra.
Defined.

(** C2.  For either sex, a fork length at or beyond the asymptotic length
    gives the missing marker; and for every input whatsoever (finite,
    infinite or NaN) the function returns, hands back either the marker or
    a finite positive age, and lets no floating-point event surface. *)
Theorem C2_estimator_missing_beyond_asymptote (s : sex) (FL : R) :
  L_inf s <= FL ->
  vb_age_estimator s (Fin FL) = (NaN, [])
  /\ forall Lt : npfloat,
       snd (vb_age_estimator s Lt) = []
       /\ is_age_or_missing (fst (vb_age_estimator s Lt)).
Proof.
  intros H. split.
  - rewrite estimator_is_body.
    apply vb_body_beyond_asymptote; [apply L_inf_pos | | assumption].
    unfold birth_b; lra.
  - intros Lt. rewrite estimator_is_body. split.
    + apply vb_body_events.
    + apply vb_body_value.
Qed.

Lemma C2_estimator_missing_beyond_asymptote_witness :
  vb_age_estimator Male (Fin 300) = (NaN, [])
  /\ forall Lt : npfloat,
       snd (vb_age_estimator Male Lt) = []
       /\ is_age_or_missing (fst (vb_age_estimator Male Lt)).
Proof.
  apply (C2_estimator_missing_beyond_asymptote Male 300); simpl; lra.
Defined.

(** C9.  For either sex, a fork length that is zero or negative, but above
    [-49 * Linf], is not rejected: the estimator returns the closed form,
    a finite positive age.  At length 0 a male gets
    [ln(1/50) / (-0.16)], about 24.45 years. *)
Theorem C9_nonpositive_length_gets_an_age (s : sex) (FL : R) :
  -49 * L_inf s < FL -> FL <= 0 ->
  vb_age_estimator s (Fin FL) = (Fin (vb_formula s FL), [])
  /\ 0 < vb_formula s FL
  /\ calculate_male_age (Fin 0) = (Fin (ln (1 / 50) / - (0.16)), [])
  /\ Rabs (ln (1 / 50) / - (0.16) - 24.45) < 0.005.
Proof.
  intros Hlo Hhi.
  pose proof (L_inf_pos s) as HL.
  split; [|split].
  - apply estimator_closed_form; lra.
  - apply estimator_closed_form; lra.
  - destruct (estimator_closed_form Male 0) as [E _]; simpl; try lra.
    simpl in E. unfold vb_formula in E. simpl in E. unfold birth_b in E.
    pose proof ln_male_0 as Hln. unfold log_argument in Hln.
    replace (1 / 50 * (1 - 0 / 264.2)) with (1 / 50) in * by lra.
    split; [exact E|].
    replace (- (0.16)) with (-0.16) by lra.
    apply Rabs_def1; lra.
Qed.

Lemma C9_nonpositive_length_gets_an_age_witness :
  vb_age_estimator Female (Fin (-100)) = (Fin (vb_formula Female (-100)), [])
  /\ 0 < vb_formula Female (-100)
  /\ calculate_male_age (Fin 0) = (Fin (ln (1 / 50) / - (0.16)), [])
  /\ Rabs (ln (1 / 50) / - (0.16) - 24.45) < 0.005.
Proof.
  apply (C9_nonpositive_length_gets_an_age Female (-100)); simpl; lra.
Defined.

(** ** The Age Corrector *)

Lemma correction_coefficient_fin (r : R) :
  correction_coefficient (Fin r)
  = Fin (r * 0.5910115884370238 - 16.971951358327846).
Proof. reflexivity. Qed.

Lemma correction_coefficient_nan : correction_coefficient NaN = NaN.
Proof. reflexivity. Qed.

Lemma female_figure (FL lo hi age : R) :
  -49 * 323.9 < FL -> FL < 323.9 ->
  lo <= ln (log_argument 323.9 50 FL) <= hi ->
  age - 0.0000005 < hi / -0.11 -> lo / -0.11 < age + 0.0000005 ->
  exists a, calculate_female_age (Fin FL) = (Fin a, [])
            /\ Rabs (a - age) < 0.0000005.
Proof.
  intros H1 H2 Hln Hhi Hlo.
  destruct (estimator_closed_form Female FL) as [E _]; simpl; try lra.
  exists (vb_formula Female FL). split; [exact E|].
  unfold vb_formula, birth_b; simpl. unfold log_argument in Hln.
  replace (- (0.11)) with (-0.11) by lra.
  apply Rabs_def1; lra.
Qed.

(** C8.  The figures of the notebook: a 292 cm female gets a raw age within
    half a unit of the sixth decimal of 56.635017, a 243 cm female of
    48.174946, and the corrector sends 56.635017 to 16.5 up to 1e-9. *)
Theorem C8_reference_figures :
  (exists a, calculate_female_age (Fin 292) = (Fin a, [])
             /\ Rabs (a - 56.635017) < 0.0000005)
  /\ (exists a, calculate_female_age (Fin 243) = (Fin a, [])
                /\ Rabs (a - 48.174946) < 0.0000005)
  /\ (exists c, correction_coefficient (Fin 56.635017) = Fin c
                /\ Rabs (c - 16.5) < 0.000000001).
Proof.
  split; [|split].
  - apply (female_figure 292 _ _ 56.635017 ltac:(lra) ltac:(lra) ln_female_292);
      lra.
  - apply (female_figure 243 _ _ 48.174946 ltac:(lra) ltac:(lra) ln_female_243);
      lra.
  - eexists. split; [apply correction_coefficient_fin|].
    apply Rabs_def1; lra.
Qed.

(** The list printed by the notebook, from which the array of the
    regression cell was typed in. *)
Lemma Vertebral_vb_estimation_figures :
  exists a1 a2 : R,
    Vertebral_vb_estimation = [Fin a1; Fin a2]
    /\ Rabs (a1 - 56.635017) < 0.0000005
    /\ Rabs (a2 - 48.174946) < 0.0000005.
Proof.
  destruct (female_figure 292 _ _ 56.635017 ltac:(lra) ltac:(lra) ln_female_292)
    as (a1 & E1 & H1); [lra | lra |].
  destruct (female_figure 243 _ _ 48.174946 ltac:(lra) ltac:(lra) ln_female_243)
    as (a2 & E2 & H2); [lra | lra |].
  exists a1, a2. unfold Vertebral_vb_estimation, Vertebral_aged_FL.
  simpl map. rewrite E1, E2. auto.
Qed.

(** C10.  The corrector has no positivity filter: for every uncorrected age
    that is not the marker and is at most
    16.971951358327846 / 0.5910115884370238, the corrected age is not the
    marker either and is at most zero; on a finite age it is the value of
    the line. *)
Theorem C10_corrector_keeps_nonpositive (m : npfloat) :
  isnan m = false ->
  le_c m (16.971951358327846 / 0.5910115884370238) = true ->
  isnan (correction_coefficient m) = false
  /\ le_c (correction_coefficient m) 0 = true
  /\ forall r, m = Fin r ->
       correction_coefficient m
       = Fin (r * 0.5910115884370238 - 16.971951358327846)
       /\ r * 0.5910115884370238 - 16.971951358327846 <= 0.
Proof.
  intros Hnan Hle.
  destruct m as [r| | |]; simpl in *; try discriminate.
  - destruct (Rle_dec r _) as [Hr|]; [|discriminate].
    assert (Hv : r * 0.5910115884370238 - 16.971951358327846 <= 0).
    { apply Rle_minus.
      apply (Rmult_le_compat_r 0.5910115884370238) in Hr; [|lra].
      replace (16.971951358327846 / 0.5910115884370238 * 0.5910115884370238)
        with 16.971951358327846 in Hr by lra.
      exact Hr. }
    split; [reflexivity|]. split.
    + unfold correction_coefficient; simpl.
      destruct (Rle_dec _ 0); [reflexivity | contradiction].
    + intros r' Er. injection Er as <-. split; [reflexivity | exact Hv].
  - unfold correction_coefficient; simpl.
    destruct (Rlt_dec 0 0.5910115884370238) as [_|n]; [|exfalso; lra].
    simpl. split; [reflexivity|]. split; [reflexivity|].
    intros r Er; discriminate.
Qed.

Lemma C10_corrector_keeps_nonpositive_witness :
  isnan (correction_coefficient (Fin 20)) = false
  /\ le_c (correction_coefficient (Fin 20)) 0 = true
  /\ forall r, Fin 20 = Fin r ->
       correction_coefficient (Fin 20)
       = Fin (r * 0.5910115884370238 - 16.971951358327846)
       /\ r * 0.5910115884370238 - 16.971951358327846 <= 0.
Proof.
  apply (C10_corrector_keeps_nonpositive (Fin 20)).
  - reflexivity.
  - simpl. destruct (Rle_dec 20 _) as [_|n]; [reflexivity | exfalso; lra].
Defined.

(** ** The specimen table *)

Lemma getitem_setitem_same (df : DataFrame) (c : string) (s : Series) :
  getitem (setitem df c s) c = Returned s.
Proof.
  unfold getitem.
  induction df as [|[c' s'] rest IH]; simpl.
  - now rewrite String.eqb_refl.
  - destruct (String.eqb c c') eqn:E; simpl; rewrite E; [reflexivity|].
    exact IH.
Qed.

Lemma series_map_numeric (f : npfloat -> npfloat) (s : Series) :
  forallb is_numeric s = true ->
  exists out, series_map f s = Returned out
    /\ List.length out = List.length s
    /\ forallb is_numeric out = true
    /\ forall i x, nth_error s i = Some (Num x) ->
                   nth_error out i = Some (Num (f x)).
Proof.
  unfold series_map.
  induction s as [|c rest IH]; simpl; intros Hnum.
  - exists []. repeat split. intros [|i] x H; discriminate.
  - apply andb_prop in Hnum as [Hc Hrest].
    destruct c as [y|t]; [|discriminate].
    destruct (IH Hrest) as (out & E & Hlen & Hn & Hnth).
    exists (Num (f y) :: out). simpl. rewrite E. simpl.
    repeat split; auto.
    intros [|i] x H; simpl in *.
    + now injection H as ->.
    + now apply Hnth.
Qed.

(** C6.  The marker propagates through the corrector: a missing uncorrected
    age gives a missing corrected age.  A row whose Sex is neither "Male"
    nor "Female" gets the marker from [calculate_age] (its fork length is
    not read), and the corrector keeps it.  Applied to a column of ages the
    corrector does not raise, and every row that holds the marker still
    holds it afterwards. *)
Theorem C6_missing_age_propagates (m : npfloat) (row : Row) (sx : cell)
  (vb : Series) :
  (isnan m = true -> correction_coefficient m = NaN)
  /\ (getitem row "Sex" = Returned sx ->
      cell_eq_str sx "Male" = false ->
      cell_eq_str sx "Female" = false ->
      calculate_age row = Returned NaN
      /\ bind (calculate_age row)
              (fun age => Returned (correction_coefficient age))
         = Returned NaN)
  /\ (forallb is_numeric vb = true ->
      exists corrected : Series,
        series_map correction_coefficient vb = Returned corrected
        /\ List.length corrected = List.length vb
        /\ forall i, nth_error vb i = Some (Num NaN) ->
                     nth_error corrected i = Some (Num NaN)).
Proof.
  split; [|split].
  - destruct m; simpl; intros H; try discriminate. reflexivity.
  - intros Hsx Hm Hf.
    assert (E : calculate_age row = Returned NaN).
    { unfold calculate_age. rewrite Hsx. simpl. rewrite Hm, Hf. reflexivity. }
    split; [exact E|]. rewrite E. reflexivity.
  - intros Hnum.
    destruct (series_map_numeric correction_coefficient vb Hnum)
      as (out & E & Hlen & _ & Hnth).
    exists out. split; [exact E|]. split; [exact Hlen|].
    intros i H. apply (Hnth i NaN H).
Qed.

Lemma C6_missing_age_propagates_witness :
  correction_coefficient NaN = NaN
  /\ calculate_age [("Sex"%string, Str "Unknown"); ("FL (cm)"%string, Num (Fin 250))]
     = Returned NaN
  /\ calculate_age [("Sex"%string, Num NaN)] = Returned NaN
  /\ exists corrected : Series,
       series_map correction_coefficient [Num (Fin 50); Num NaN]
       = Returned corrected
       /\ nth_error corrected 1 = Some (Num NaN).
Proof.
  split; [|split; [|split]].
  - apply (proj1 (C6_missing_age_propagates NaN [] (Num NaN) [])).
    reflexivity.
  - apply (proj1 (proj2 (C6_missing_age_propagates NaN
             [("Sex"%string, Str "Unknown"); ("FL (cm)"%string, Num (Fin 250))]
             (Str "Unknown") []))); reflexivity.
  - apply (proj1 (proj2 (C6_missing_age_propagates NaN
             [("Sex"%string, Num NaN)] (Num NaN) []))); reflexivity.
  - destruct (proj2 (proj2 (C6_missing_age_propagates NaN [] (Num NaN)
                              [Num (Fin 50); Num NaN])) eq_refl)
      as (corrected & E & _ & Hnan).
    exists corrected. split; [exact E|]. apply (Hnan 1%nat). reflexivity.
Defined.

(** C3, as the notebook has it.  The test is on the table, not on the row.
    A table with a fork-length column is returned as it is, whatever its
    rows hold.  A table without one, whose total-length column is numeric,
    gets the column: in every row [(TL - 3.472) / 1.2533], the marker where
    the total length is missing. *)
Theorem C3_length_normalizer_by_column (df : DataFrame) :
  (has_column df "FL (mm)" = true -> impute_fork_length df = Returned df)
  /\ (has_column df "FL (mm)" = false ->
      forall tl : Series,
        getitem df "TL (mm)" = Returned tl ->
        forallb is_numeric tl = true ->
        exists fl : Series,
          impute_fork_length df = Returned (setitem df "FL (mm)" fl)
          /\ getitem (setitem df "FL (mm)" fl) "FL (mm)" = Returned fl
          /\ List.length fl = List.length tl
          /\ (forall i x, nth_error tl i = Some (Num x) ->
                nth_error fl i = Some (Num (fork_of_total x)))
          /\ (forall i r, nth_error tl i = Some (Num (Fin r)) ->
                nth_error fl i = Some (Num (Fin ((r - 3.472) / 1.2533))))).
Proof.
  split; intros Hcol.
  - unfold impute_fork_length. now rewrite Hcol.
  - intros tl Htl Hnum.
    destruct (series_map_numeric (fun x => sub_c x 3.472) tl Hnum)
      as (d & Ed & Hlen_d & Hnum_d & Hnth_d).
    destruct (series_map_numeric (fun x => div_c x 1.2533) d Hnum_d)
      as (fl & Efl & Hlen_fl & _ & Hnth_fl).
    assert (Hall : forall i x, nth_error tl i = Some (Num x) ->
                     nth_error fl i = Some (Num (fork_of_total x))).
    { intros i x H. apply Hnth_fl. now apply Hnth_d. }
    exists fl. repeat split.
    + unfold impute_fork_length. rewrite Hcol, Htl. simpl.
      unfold series_sub, series_div. rewrite Ed. simpl. rewrite Efl.
      reflexivity.
    + apply getitem_setitem_same.
    + congruence.
    + exact Hall.
    + intros i r H. now apply Hall in H.
Qed.

Lemma C3_length_normalizer_by_column_witness :
  impute_fork_length fork_length_gap = Returned fork_length_gap
  /\ exists fl : Series,
       impute_fork_length total_length_only
       = Returned (setitem total_length_only "FL (mm)" fl)
       /\ nth_error fl 0 = Some (Num (Fin ((300 - 3.472) / 1.2533))).
Proof.
  split.
  - apply (proj1 (C3_length_normalizer_by_column fork_length_gap)).
    reflexivity.
  - destruct (proj2 (C3_length_normalizer_by_column total_length_only)
                eq_refl [Num (Fin 300)] eq_refl eq_refl)
      as (fl & E & _ & _ & _ & Hfin).
    exists fl. split; [exact E|]. now apply (Hfin 0%nat 300).
Defined.

(** C3 as stated fails: in a table that has a fork-length column, a row
    whose fork length is absent keeps the marker although its total length
    is 300. *)
Lemma C3_absent_fork_length_not_imputed :
  getitem (iloc fork_length_gap 0) "FL (mm)" = Returned (Num NaN)
  /\ getitem (iloc fork_length_gap 0) "TL (mm)" = Returned (Num (Fin 300))
  /\ exists df', impute_fork_length fork_length_gap = Returned df'
       /\ getitem (iloc df' 0) "FL (mm)" = Returned (Num NaN)
       /\ getitem (iloc df' 0) "FL (mm)"
          <> Returned (Num (Fin ((300 - 3.472) / 1.2533))).
Proof.
  split; [reflexivity|]. split; [reflexivity|].
  exists fork_length_gap. split; [reflexivity|]. split; [reflexivity|].
  discriminate.
Qed.

(** C4 at a table with Sex and total length only.  The imputation writes
    the column "FL (mm)"; [calculate_age] then reads "FL (cm)", and the
    run stops with [KeyError].  With the total length labelled in
    centimetres, as the notebook's introduction asks, the imputation
    itself stops at "TL (mm)". *)
Theorem C4_total_length_only_raises :
  notebook total_length_only = Raised (KeyError "FL (cm)")
  /\ notebook total_length_only_cm = Raised (KeyError "TL (mm)").
Proof.
  split; reflexivity.
Qed.

(** ** The Correction Calibrator *)

Lemma finite_values_fin (l : list R) : finite_values (map Fin l) = Some l.
Proof.
  induction l as [|r l IH]; simpl; [reflexivity|]. now rewrite IH.
Qed.

Lemma fit_on_reals (xs ys : list R) :
  xs <> [] -> List.length xs = List.length ys ->
  LinearRegression_fit (map Fin xs) (map Fin ys)
  = Returned
      (if Req_dec_T (sq_dev (rmean xs) xs) 0 then 0
       else co_dev (rmean xs) (rmean ys) (combine xs ys)
            / sq_dev (rmean xs) xs,
       rmean ys
       - (if Req_dec_T (sq_dev (rmean xs) xs) 0 then 0
          else co_dev (rmean xs) (rmean ys) (combine xs ys)
               / sq_dev (rmean xs) xs)
         * rmean xs).
Proof.
  intros Hne Hlen. unfold LinearRegression_fit.
  rewrite !finite_values_fin, <- Hlen, Nat.eqb_refl.
  destruct xs as [|x xs]; [contradiction|]. reflexivity.
Qed.

Lemma rsum_const (A : Type) (x : R) (l : list A) :
  rsum (map (fun _ => x) l) = INR (List.length l) * x.
Proof.
  induction l as [|a l IH].
  - simpl. ring.
  - change (rsum (map (fun _ => x) (a :: l)))
      with (x + rsum (map (fun _ => x) l)).
    rewrite IH. change (List.length (a :: l)) with (S (List.length l)).
    rewrite S_INR. ring.
Qed.

Lemma rmean_const (A : Type) (x : R) (l : list A) :
  l <> [] -> rmean (map (fun _ => x) l) = x.
Proof.
  intros Hne. unfold rmean. rewrite rsum_const, length_map.
  assert (0 < INR (List.length l)).
  { destruct l; [contradiction|]. apply lt_0_INR. simpl. lia. }
  field. lra.
Qed.

Lemma sq_dev_const (A : Type) (x : R) (l : list A) :
  sq_dev x (map (fun _ => x) l) = 0.
Proof.
  unfold sq_dev. rewrite map_map.
  rewrite (rsum_const A ((x - x) * (x - x)) l). ring.
Qed.

Lemma constant_vb_array_columns (x : R) (vertebral : list R) :
  map snd (constant_vb_array x vertebral) = map Fin (map (fun _ => x) vertebral)
  /\ map fst (constant_vb_array x vertebral) = map Fin vertebral.
Proof.
  unfold constant_vb_array. rewrite !map_map. split; reflexivity.
Qed.

Lemma fit_constant_vb_array (x : R) (vertebral : list R) :
  vertebral <> [] ->
  fit_correction (constant_vb_array x vertebral)
  = Returned (0, rmean vertebral).
Proof.
  intros Hne. unfold fit_correction.
  destruct (constant_vb_array_columns x vertebral) as [-> ->].
  rewrite fit_on_reals.
  - rewrite (rmean_const _ x vertebral Hne), sq_dev_const.
    destruct (Req_dec_T 0 0) as [_|n]; [|contradiction].
    f_equal. f_equal. ring.
  - destruct vertebral; [contradiction | discriminate].
  - now rewrite length_map.
Qed.

(** C5, as the notebook has it.  When every reference specimen has the same
    uncorrected VB age, the fit reports no calibration error: it returns a
    slope and an intercept, and raises nothing. *)
Theorem C5_degenerate_fit_reports_no_error (x : R) (vertebral : list R) :
  vertebral <> [] ->
  (exists slope intercept : R,
     fit_correction (constant_vb_array x vertebral)
     = Returned (slope, intercept))
  /\ forall e, fit_correction (constant_vb_array x vertebral) <> Raised e.
Proof.
  intros Hne. unfold fit_correction.
  destruct (constant_vb_array_columns x vertebral) as [-> ->].
  rewrite fit_on_reals.
  - split; [do 2 eexists; reflexivity | discriminate].
  - destruct vertebral; [contradiction | discriminate].
  - now rewrite length_map.
Qed.

Lemma C5_degenerate_fit_reports_no_error_witness :
  (exists slope intercept : R,
     fit_correction (constant_vb_array 50 [16.5; 11.5])
     = Returned (slope, intercept))
  /\ forall e, fit_correction (constant_vb_array 50 [16.5; 11.5]) <> Raised e.
Proof.
  apply (C5_degenerate_fit_reports_no_error 50 [16.5; 11.5]). discriminate.
Defined.

(** C5 as stated fails: two reference specimens with the same VB age 50
    and vertebral ages 16.5 and 11.5 give no error but the pair (0, 14). *)
Lemma C5_zero_variance_is_not_reported :
  fit_correction [(Fin 16.5, Fin 50); (Fin 11.5, Fin 50)] = Returned (0, 14)
  /\ forall e, fit_correction [(Fin 16.5, Fin 50); (Fin 11.5, Fin 50)]
               <> Raised e.
Proof.
  assert (E : fit_correction [(Fin 16.5, Fin 50); (Fin 11.5, Fin 50)]
              = Returned (0, 14)).
  { change [(Fin 16.5, Fin 50); (Fin 11.5, Fin 50)]
      with (constant_vb_array 50 [16.5; 11.5]).
    rewrite fit_constant_vb_array by discriminate.
    f_equal. f_equal. unfold rmean. simpl. lra. }
  split; [exact E|]. intros e. rewrite E. discriminate.
Qed.

Lemma two_point_sums (x1 y1 x2 y2 : R) :
  rmean [x1; x2] = (x1 + x2) / 2
  /\ rmean [y1; y2] = (y1 + y2) / 2
  /\ sq_dev (rmean [x1; x2]) [x1; x2] = (x1 - x2) * (x1 - x2) / 2
  /\ co_dev (rmean [x1; x2]) (rmean [y1; y2]) (combine [x1; x2] [y1; y2])
     = (x1 - x2) * (y1 - y2) / 2.
Proof.
  unfold sq_dev, co_dev, rmean, rsum. simpl.
  repeat split; field.
Qed.

Lemma fit_two_points (x1 y1 x2 y2 : R) :
  x1 <> x2 ->
  fit_correction [(Fin y1, Fin x1); (Fin y2, Fin x2)]
  = Returned ((y1 - y2) / (x1 - x2),
              (y1 + y2) / 2 - (y1 - y2) / (x1 - x2) * ((x1 + x2) / 2)).
Proof.
  intros Hne. unfold fit_correction.
  change (map snd [(Fin y1, Fin x1); (Fin y2, Fin x2)]) with (map Fin [x1; x2]).
  change (map fst [(Fin y1, Fin x1); (Fin y2, Fin x2)]) with (map Fin [y1; y2]).
  rewrite fit_on_reals by (discriminate || reflexivity).
  destruct (two_point_sums x1 y1 x2 y2) as (-> & -> & -> & ->).
  assert (Hd : x1 - x2 <> 0) by lra.
  destruct (Req_dec_T ((x1 - x2) * (x1 - x2) / 2) 0) as [E|_].
  - exfalso.
    assert (E' : (x1 - x2) * (x1 - x2) = 0) by lra.
    apply Rmult_integral in E'. tauto.
  - f_equal. f_equal.
    + field. assumption.
    + f_equal. f_equal. field. assumption.
Qed.

(** C7, as the notebook has it.  For two reference specimens whose
    uncorrected VB ages differ, the fitted line passes through both
    (VB age, vertebral age) points: both residuals are zero. *)
Theorem C7_two_point_fit_is_exact (x1 y1 x2 y2 : R) :
  x1 <> x2 ->
  exists slope intercept : R,
    fit_correction [(Fin y1, Fin x1); (Fin y2, Fin x2)]
    = Returned (slope, intercept)
    /\ y1 - (slope * x1 + intercept) = 0
    /\ y2 - (slope * x2 + intercept) = 0.
Proof.
  intros Hne. rewrite (fit_two_points x1 y1 x2 y2 Hne).
  do 2 eexists. split; [reflexivity|].
  split; field; lra.
Qed.

Lemma C7_two_point_fit_is_exact_witness :
  exists slope intercept : R,
    fit_correction Vertebral_vb_array = Returned (slope, intercept)
    /\ 16.5 - (slope * 56.635017 + intercept) = 0
    /\ 11.5 - (slope * 48.174946 + intercept) = 0.
Proof.
  apply (C7_two_point_fit_is_exact 56.635017 16.5 48.174946 11.5). lra.
Defined.

(** C7 as stated fails: two reference pairs can be distinct and still share
    their VB age; the fit is then the flat line through the mean, and the
    residual at the first point is 2.5. *)
Lemma C7_distinct_pairs_same_vb_age :
  (Fin 16.5, Fin 50) <> (Fin 11.5, Fin 50)
  /\ exists slope intercept : R,
       fit_correction [(Fin 16.5, Fin 50); (Fin 11.5, Fin 50)]
       = Returned (slope, intercept)
       /\ 16.5 - (slope * 50 + intercept) = 2.5.
Proof.
  split.
  - intros H. injection H as H. lra.
  - exists 0, (rmean [16.5; 11.5]). split.
    + change [(Fin 16.5, Fin 50); (Fin 11.5, Fin 50)]
        with (constant_vb_array 50 [16.5; 11.5]).
      apply fit_constant_vb_array. discriminate.
    + unfold rmean. simpl. lra.
Qed.

(** The constants written into [correction_coefficient] are the fit of the
    notebook's own array, to the last printed digits. *)
Lemma hardcoded_line_is_the_reference_fit :
  exists slope intercept : R,
    fit_correction Vertebral_vb_array = Returned (slope, intercept)
    /\ Rabs (slope - 0.5910115884370238) < 0.000000000000001
    /\ Rabs (intercept - -16.971951358327846) < 0.0000000000001.
Proof.
  unfold Vertebral_vb_array.
  rewrite (fit_two_points 56.635017 16.5 48.174946 11.5) by lra.
  do 2 eexists. split; [reflexivity|].
  replace ((16.5 - 11.5) / (56.635017 - 48.174946))
    with (5000000 / 8460071) by lra.
  split; apply Rabs_def1; lra.
Qed.

(** * Further properties of the code *)

(** ** The VB functions on their whole domain *)

Lemma log_argument_of_vb_length (s : sex) (t : R) :
  log_argument (L_inf s) birth_b (vb_length s t) = exp (- growth_k s * t).
Proof.
  unfold log_argument, vb_length, birth_b.
  pose proof (L_inf_pos s). field. lra.
Qed.

Lemma growth_k_pos (s : sex) : 0 < growth_k s.
Proof. destruct s; simpl; lra. Qed.

Lemma vb_formula_is_log_argument (s : sex) (FL : R) :
  vb_formula s FL = ln (log_argument (L_inf s) birth_b FL) / (- growth_k s).
Proof. reflexivity. Qed.

(** The VB functions invert the growth curve: the length the curve gives
    at a positive age [t] is sent back to [t]. *)
Theorem vb_estimator_inverts_growth_curve (s : sex) (t : R) :
  0 < t ->
  vb_age_estimator s (Fin (vb_length s t)) = (Fin t, []).
Proof.
  intros Ht.
  pose proof (L_inf_pos s) as HL. pose proof (growth_k_pos s) as Hk.
  assert (He : 0 < exp (- growth_k s * t) < 1).
  { split; [apply exp_pos|]. rewrite <- exp_0. apply exp_increasing.
    assert (0 < growth_k s * t) by now apply Rmult_lt_0_compat. lra. }
  assert (Hform : vb_formula s (vb_length s t) = t).
  { rewrite vb_formula_is_log_argument, log_argument_of_vb_length, ln_exp.
    field. lra. }
  destruct (estimator_closed_form s (vb_length s t)) as [E _].
  - unfold vb_length, birth_b.
    assert (L_inf s * (1 - 50 * exp (- growth_k s * t))
            = L_inf s - 50 * (L_inf s * exp (- growth_k s * t))) as -> by ring.
    assert (L_inf s * exp (- growth_k s * t) < L_inf s * 1).
    { apply Rmult_lt_compat_l; lra. }
    lra.
  - unfold vb_length, birth_b.
    assert (0 < L_inf s * (50 * exp (- growth_k s * t))).
    { apply Rmult_lt_0_compat; lra. }
    lra.
  - rewrite E, Hform. reflexivity.
Qed.

Lemma vb_estimator_inverts_growth_curve_witness :
  vb_age_estimator Female (Fin (vb_length Female 16.5)) = (Fin 16.5, []).
Proof.
  apply (vb_estimator_inverts_growth_curve Female 16.5). lra.
Defined.

(** Longer means older: on the lengths that get an age, the age grows
    strictly with the length. *)
Theorem vb_estimator_strictly_increasing (s : sex) (FL1 FL2 : R) :
  -49 * L_inf s < FL1 -> FL1 < FL2 -> FL2 < L_inf s ->
  exists a1 a2 : R,
    vb_age_estimator s (Fin FL1) = (Fin a1, [])
    /\ vb_age_estimator s (Fin FL2) = (Fin a2, [])
    /\ a1 < a2.
Proof.
  intros Hlo H12 Hhi.
  pose proof (L_inf_pos s) as HL. pose proof (growth_k_pos s) as Hk.
  destruct (estimator_closed_form s FL1) as [E1 _]; try lra.
  destruct (estimator_closed_form s FL2) as [E2 _]; try lra.
  exists (vb_formula s FL1), (vb_formula s FL2).
  split; [exact E1|]. split; [exact E2|].
  rewrite !vb_formula_is_log_argument.
  assert (Hb : 0 < birth_b) by (unfold birth_b; lra).
  assert (H2 : 0 < log_argument (L_inf s) birth_b FL2).
  { apply log_argument_pos; assumption. }
  assert (Harg : log_argument (L_inf s) birth_b FL2
                 < log_argument (L_inf s) birth_b FL1).
  { unfold log_argument.
    apply Rmult_lt_compat_l; [apply Rdiv_lt_0_compat; lra|].
    assert (FL1 / L_inf s < FL2 / L_inf s); [|lra].
    apply Rmult_lt_compat_r; [now apply Rinv_0_lt_compat | assumption]. }
  apply ln_increasing in Harg; [|assumption].
  assert (forall a, a / - growth_k s = - a * / growth_k s) as Hdiv
    by (intros a; field; lra).
  rewrite !Hdiv.
  apply Rmult_lt_compat_r; [now apply Rinv_0_lt_compat | lra].
Qed.

Lemma vb_estimator_strictly_increasing_witness :
  exists a1 a2 : R,
    vb_age_estimator Female (Fin 243) = (Fin a1, [])
    /\ vb_age_estimator Female (Fin 292) = (Fin a2, [])
    /\ a1 < a2.
Proof.
  apply (vb_estimator_strictly_increasing Female 243 292); simpl; lra.
Defined.

Lemma vb_body_far_below (L8 b k FL : R) :
  0 < L8 -> 1 < b -> 0 < k ->
  FL <= (1 - b) * L8 -> vb_body (Fin FL) L8 b k = (NaN, []).
Proof.
  intros HL Hb Hk Hlow.
  assert (Harg : 1 <= log_argument L8 b FL).
  { unfold log_argument.
    assert (b <= 1 - FL / L8).
    { assert (FL / L8 <= 1 - b); [|lra].
      apply div_le_of_le_mul; assumption. }
    apply (Rmult_le_reg_l b); [lra|].
    replace (b * (1 / b * (1 - FL / L8))) with (1 - FL / L8) by (field; lra).
    lra. }
  assert (Hln : 0 <= ln (log_argument L8 b FL)).
  { destruct Harg as [Hlt|<-]; [|rewrite ln_1; lra].
    left. rewrite <- ln_1. apply ln_increasing; lra. }
  unfold vb_body; simpl. fold (log_argument L8 b FL).
  destruct (Rlt_dec 0 (log_argument L8 b FL)) as [_|n]; [|lra].
  simpl.
  destruct (Rle_dec (ln (log_argument L8 b FL) / - k) 0) as [_|n];
    [reflexivity|].
  exfalso. apply n.
  replace (ln (log_argument L8 b FL) / - k)
    with (- (ln (log_argument L8 b FL) * / k)) by (field; lra).
  assert (0 <= ln (log_argument L8 b FL) * / k); [|lra].
  apply Rmult_le_pos; [assumption|]. left. now apply Rinv_0_lt_compat.
Qed.

Lemma vb_body_not_finite (L8 b k : R) (Lt : npfloat) :
  0 < L8 -> 0 < b -> 0 < k ->
  isfinite Lt = false -> fst (vb_body Lt L8 b k) = NaN.
Proof.
  intros HL Hb Hk Hnf.
  assert (H1b : 0 < 1 / b) by (apply Rdiv_lt_0_compat; lra).
  destruct Lt as [r| | |]; try discriminate; unfold vb_body; simpl.
  - destruct (Rlt_dec 0 L8) as [_|n]; [|contradiction]. simpl.
    destruct (Rlt_dec 0 (1 / b)) as [_|n]; [|contradiction]. reflexivity.
  - destruct (Rlt_dec 0 L8) as [_|n]; [|contradiction]. simpl.
    destruct (Rlt_dec 0 (1 / b)) as [_|n]; [|contradiction]. simpl.
    destruct (Rlt_dec 0 (- k)) as [Hbad|_]; [lra|]. reflexivity.
  - reflexivity.
Qed.

(** Exactly which inputs get an age: the finite lengths strictly between
    [-49 * Linf] and [Linf].  Every other input - shorter, longer,
    infinite or NaN - gets the marker. *)
Theorem vb_estimator_age_domain (s : sex) (Lt : npfloat) :
  isnan (fst (vb_age_estimator s Lt)) = false
  <-> exists FL : R, Lt = Fin FL /\ -49 * L_inf s < FL /\ FL < L_inf s.
Proof.
  pose proof (L_inf_pos s) as HL. pose proof (growth_k_pos s) as Hk.
  assert (Hb : 0 < birth_b) by (unfold birth_b; lra).
  split.
  - intros Hage. rewrite estimator_is_body in Hage.
    destruct Lt as [FL| | |].
    + exists FL. split; [reflexivity|].
      destruct (Rle_lt_dec FL (-49 * L_inf s)) as [Hlow|Hlow].
      * rewrite vb_body_far_below in Hage; try assumption;
          try (unfold birth_b; lra); discriminate.
      * destruct (Rle_lt_dec (L_inf s) FL) as [Hup|Hup]; [|lra].
        rewrite vb_body_beyond_asymptote in Hage; try assumption.
        discriminate.
    + rewrite vb_body_not_finite in Hage by (assumption || reflexivity).
      discriminate.
    + rewrite vb_body_not_finite in Hage by (assumption || reflexivity).
      discriminate.
    + rewrite vb_body_not_finite in Hage by (assumption || reflexivity).
      discriminate.
  - intros (FL & -> & Hlo & Hhi).
    destruct (estimator_closed_form s FL Hlo Hhi) as [E _].
    rewrite E. reflexivity.
Qed.

(** ** The wrapper [calculate_age] *)

Lemma call_vb_value (f : npfloat -> npfloat * list fperr) (c : cell)
  (age : npfloat) :
  (forall x, is_age_or_missing (fst (f x))) ->
  call_vb f c = Returned age -> is_age_or_missing age.
Proof.
  intros Hf. destruct c as [x|t]; simpl; intros H; [|discriminate].
  injection H as <-. apply Hf.
Qed.

Lemma calculate_age_value_ok (row : Row) (age : npfloat) :
  calculate_age row = Returned age -> is_age_or_missing age.
Proof.
  unfold calculate_age.
  destruct (getitem row "Sex") as [sx|e]; simpl; [|discriminate].
  destruct (cell_eq_str sx "Male").
  - destruct (getitem row "FL (cm)") as [fl|e]; simpl; [|discriminate].
    apply call_vb_value. intros x. apply vb_body_value.
  - destruct (cell_eq_str sx "Female").
    + destruct (getitem row "FL (cm)") as [fl|e]; simpl; [|discriminate].
      apply call_vb_value. intros x. apply vb_body_value.
    + intros H. injection H as <-. left. reflexivity.
Qed.

(** Whatever the row, an age that [calculate_age] returns is the marker or
    a finite positive number: no zero, negative or infinite age leaves it,
    and none reaches the table through [apply]. *)
Theorem calculate_age_returns_age_or_missing (row : Row) (age : npfloat) :
  calculate_age row = Returned age -> is_age_or_missing age.
Proof.
  intros H. destruct (calculate_age_value_ok row age H) as [Hn|(a & Ea & Ha)].
  - now left.
  - right. now exists a.
Qed.

Lemma calculate_age_returns_age_or_missing_witness :
  is_age_or_missing (fst (calculate_male_age (Fin 200))).
Proof.
  apply (calculate_age_returns_age_or_missing
           [("Sex"%string, Str "Male"); ("FL (cm)"%string, Num (Fin 200))]).
  reflexivity.
Defined.

Lemma getitem_raised {V : Type} (l : list (string * V)) (c : string) (e : pyexn) :
  getitem l c = Raised e -> e = KeyError c /\ assoc c l = None.
Proof.
  unfold getitem. destruct (assoc c l); intros H; [discriminate|].
  injection H as <-. split; reflexivity.
Qed.

Lemma call_vb_raised (f : npfloat -> npfloat * list fperr) (c : cell) (e : pyexn) :
  call_vb f c = Raised e -> e = TypeError /\ is_numeric c = false.
Proof.
  destruct c; simpl; intros H; [discriminate|].
  injection H as <-. split; reflexivity.
Qed.

(** The only ways [calculate_age] can fail: the row has no "Sex" label; or
    the sex is "Male" or "Female" and the row has no "FL (cm)" label, or
    holds text there. *)
Theorem calculate_age_failures (row : Row) (e : pyexn) :
  calculate_age row = Raised e ->
  (e = KeyError "Sex" /\ assoc "Sex"%string row = None)
  \/ exists sx : cell,
       assoc "Sex"%string row = Some sx
       /\ (cell_eq_str sx "Male" = true \/ cell_eq_str sx "Female" = true)
       /\ ((e = KeyError "FL (cm)" /\ assoc "FL (cm)"%string row = None)
           \/ (e = TypeError
               /\ exists t, assoc "FL (cm)"%string row = Some (Str t))).
Proof.
  unfold calculate_age.
  destruct (getitem row "Sex") as [sx|e0] eqn:Hsx; simpl.
  - assert (Hs : assoc "Sex"%string row = Some sx).
    { unfold getitem in Hsx. destruct (assoc "Sex"%string row); congruence. }
    assert (Hfl : forall f e1,
               bind (getitem row "FL (cm)") (fun fl => call_vb f fl) = Raised e1 ->
               (e1 = KeyError "FL (cm)" /\ assoc "FL (cm)"%string row = None)
               \/ (e1 = TypeError
                   /\ exists t, assoc "FL (cm)"%string row = Some (Str t))).
    { intros f e1. unfold getitem.
      destruct (assoc "FL (cm)"%string row) as [[x|t]|]; simpl; intros H;
        try discriminate; injection H as <-.
      - right. split; [reflexivity|]. now exists t.
      - left. split; reflexivity. }
    destruct (cell_eq_str sx "Male") eqn:Hm.
    + intros H. right. exists sx. split; [exact Hs|]. split; [now left|].
      exact (Hfl _ _ H).
    + destruct (cell_eq_str sx "Female") eqn:Hf.
      * intros H. right. exists sx. split; [exact Hs|]. split; [now right|].
        exact (Hfl _ _ H).
      * discriminate.
  - intros H. injection H as <-. left.
    apply getitem_raised in Hsx. exact Hsx.
Qed.

Lemma calculate_age_failures_witness :
  (KeyError "FL (cm)" = KeyError "Sex"
   /\ assoc "Sex"%string [("Sex"%string, Str "Male")] = None)
  \/ exists sx : cell,
       assoc "Sex"%string [("Sex"%string, Str "Male")] = Some sx
       /\ (cell_eq_str sx "Male" = true \/ cell_eq_str sx "Female" = true)
       /\ ((KeyError "FL (cm)" = KeyError "FL (cm)"
            /\ assoc "FL (cm)"%string [("Sex"%string, Str "Male")] = None)
           \/ (KeyError "FL (cm)" = TypeError
               /\ exists t, assoc "FL (cm)"%string [("Sex"%string, Str "Male")]
                            = Some (Str t))).
Proof.
  apply (calculate_age_failures [("Sex"%string, Str "Male")]
           (KeyError "FL (cm)")).
  reflexivity.
Defined.

(** ** The imputation cell *)

Lemma has_column_assoc (df : DataFrame) (c : string) :
  has_column df c = match assoc c df with Some _ => true | None => false end.
Proof.
  unfold has_column, columns.
  induction df as [|[c' s'] rest IH]; simpl; [reflexivity|].
  destruct (String.eqb c c'); simpl; [reflexivity | exact IH].
Qed.

Lemma has_column_setitem_same (df : DataFrame) (c : string) (s : Series) :
  has_column (setitem df c s) c = true.
Proof.
  rewrite has_column_assoc.
  pose proof (getitem_setitem_same df c s) as H. unfold getitem in H.
  destruct (assoc c (setitem df c s)); [reflexivity | discriminate].
Qed.

Lemma assoc_setitem_other (df : DataFrame) (c c' : string) (s : Series) :
  c' <> c -> assoc c' (setitem df c s) = assoc c' df.
Proof.
  intros Hne.
  induction df as [|[c0 s0] rest IH]; simpl.
  - destruct (String.eqb c' c) eqn:E; [|reflexivity].
    apply String.eqb_eq in E. contradiction.
  - destruct (String.eqb c c0) eqn:E; simpl.
    + apply String.eqb_eq in E. subst c0.
      destruct (String.eqb c' c) eqn:E'; [|reflexivity].
      apply String.eqb_eq in E'. contradiction.
    + destruct (String.eqb c' c0); [reflexivity | exact IH].
Qed.

Lemma columns_setitem_fresh (df : DataFrame) (c : string) (s : Series) :
  has_column df c = false -> columns (setitem df c s) = columns df ++ [c].
Proof.
  unfold has_column, columns.
  induction df as [|[c0 s0] rest IH]; simpl; intros H; [reflexivity|].
  apply orb_false_iff in H as [H0 Hrest]. rewrite H0. simpl.
  now rewrite IH.
Qed.

Lemma impute_result (df df' : DataFrame) :
  impute_fork_length df = Returned df' ->
  (has_column df "FL (mm)" = true /\ df' = df)
  \/ (has_column df "FL (mm)" = false
      /\ exists fl, df' = setitem df "FL (mm)" fl).
Proof.
  unfold impute_fork_length.
  destruct (has_column df "FL (mm)"); simpl.
  - intros H. injection H as <-. now left.
  - destruct (getitem df "TL (mm)") as [tl|]; simpl; [|discriminate].
    destruct (series_sub tl 3.472) as [d|]; simpl; [|discriminate].
    destruct (series_div d 1.2533) as [fl|]; simpl; [|discriminate].
    intros H. injection H as <-. right. split; [reflexivity|]. now exists fl.
Qed.

(** With neither length column the imputation stops at the total length. *)
Theorem impute_without_lengths_raises (df : DataFrame) :
  has_column df "FL (mm)" = false ->
  has_column df "TL (mm)" = false ->
  impute_fork_length df = Raised (KeyError "TL (mm)")
  /\ notebook df = Raised (KeyError "TL (mm)").
Proof.
  intros Hfl Htl.
  assert (E : impute_fork_length df = Raised (KeyError "TL (mm)")).
  { unfold impute_fork_length. rewrite Hfl. simpl.
    rewrite has_column_assoc in Htl. unfold getitem.
    destruct (assoc "TL (mm)"%string df); [discriminate | reflexivity]. }
  split; [exact E|]. unfold notebook. now rewrite E.
Qed.

Lemma impute_without_lengths_raises_witness :
  impute_fork_length [("Sex"%string, [Str "Male"])] = Raised (KeyError "TL (mm)")
  /\ notebook [("Sex"%string, [Str "Male"])] = Raised (KeyError "TL (mm)").
Proof.
  apply (impute_without_lengths_raises [("Sex"%string, [Str "Male"])]);
    reflexivity.
Defined.

(** Running the imputation again changes nothing. *)
Theorem impute_idempotent (df df' : DataFrame) :
  impute_fork_length df = Returned df' ->
  impute_fork_length df' = Returned df'.
Proof.
  intros H.
  assert (Hcol : has_column df' "FL (mm)" = true).
  { destruct (impute_result df df' H) as [[Hc ->]|[_ [fl ->]]];
      [exact Hc | apply has_column_setitem_same]. }
  unfold impute_fork_length. now rewrite Hcol.
Qed.

Lemma impute_idempotent_witness :
  impute_fork_length fork_length_gap = Returned fork_length_gap.
Proof.
  apply (impute_idempotent fork_length_gap fork_length_gap). reflexivity.
Defined.

(** The imputation touches no other column: every other label reads as
    before, and the labels are the old ones, followed by "FL (mm)" when it
    was missing. *)
Theorem impute_keeps_other_columns (df df' : DataFrame) :
  impute_fork_length df = Returned df' ->
  (forall c, c <> "FL (mm)"%string -> getitem df' c = getitem df c)
  /\ columns df'
     = if has_column df "FL (mm)" then columns df
       else columns df ++ ["FL (mm)"%string].
Proof.
  intros H.
  destruct (impute_result df df' H) as [[Hc ->]|[Hc [fl ->]]]; rewrite Hc.
  - split; reflexivity.
  - split.
    + intros c Hne. unfold getitem. now rewrite assoc_setitem_other.
    + now apply columns_setitem_fresh.
Qed.

Lemma impute_keeps_other_columns_witness :
  exists df',
    impute_fork_length total_length_only = Returned df'
    /\ getitem df' "Sex" = Returned [Str "Female"]
    /\ columns df' = ["Sex"; "TL (mm)"; "FL (mm)"]%string.
Proof.
  destruct (impute_fork_length total_length_only) as [df'|e] eqn:E;
    [|discriminate E].
  exists df'. split; [reflexivity|].
  destruct (impute_keeps_other_columns total_length_only df' E) as [Hget Hcols].
  split.
  - rewrite Hget; [reflexivity | discriminate].
  - exact Hcols.
Defined.

Lemma series_map_nums (g : npfloat -> npfloat) (xs : list npfloat) :
  series_map g (map Num xs) = Returned (map (fun x => Num (g x)) xs).
Proof.
  unfold series_map.
  induction xs as [|x xs IH]; simpl; [reflexivity|]. now rewrite IH.
Qed.

Lemma series_map_text (g : npfloat -> npfloat) (s : Series) :
  forallb is_numeric s = false -> series_map g s = Raised TypeError.
Proof.
  unfold series_map.
  induction s as [|c rest IH]; simpl; intros H; [discriminate|].
  destruct c as [x|t]; simpl in *; [|reflexivity].
  now rewrite (IH H).
Qed.

Lemma fork_of_total_of_fork (fl : R) :
  fork_of_total (Fin (total_of_fork fl)) = Fin fl.
Proof.
  unfold fork_of_total, total_of_fork. simpl. f_equal. lra.
Qed.

(** The imputation inverts the length relation of the notebook's text: on
    a table without fork lengths whose total lengths are
    [1.2533 FL + 3.472], the new column holds exactly the lengths [FL]. *)
Theorem impute_recovers_fork_lengths (df : DataFrame) (fls : list R) :
  has_column df "FL (mm)" = false ->
  getitem df "TL (mm)"
  = Returned (map (fun fl => Num (Fin (total_of_fork fl))) fls) ->
  exists df' : DataFrame,
    impute_fork_length df = Returned df'
    /\ getitem df' "FL (mm)" = Returned (map (fun fl => Num (Fin fl)) fls).
Proof.
  intros Hcol Htl.
  exists (setitem df "FL (mm)" (map (fun fl => Num (Fin fl)) fls)).
  split; [|apply getitem_setitem_same].
  unfold impute_fork_length. rewrite Hcol, Htl. simpl.
  unfold series_sub, series_div.
  rewrite <- (map_map (fun fl => Fin (total_of_fork fl)) Num).
  rewrite series_map_nums. simpl.
  rewrite <- (map_map (fun x => sub_c x 3.472) Num).
  rewrite series_map_nums. simpl.
  rewrite !map_map. do 2 f_equal.
  apply map_ext. intros fl. f_equal. apply fork_of_total_of_fork.
Qed.

Lemma impute_recovers_fork_lengths_witness :
  exists df' : DataFrame,
    impute_fork_length
      [("Sex"%string, [Str "Male"; Str "Female"]);
       ("TL (mm)"%string, map (fun fl => Num (Fin (total_of_fork fl))) [200; 250])]
    = Returned df'
    /\ getitem df' "FL (mm)" = Returned [Num (Fin 200); Num (Fin 250)].
Proof.
  apply (impute_recovers_fork_lengths
           [("Sex"%string, [Str "Male"; Str "Female"]);
            ("TL (mm)"%string, map (fun fl => Num (Fin (total_of_fork fl))) [200; 250])]
           [200; 250]); reflexivity.
Defined.

(** A total-length column that holds text anywhere stops the imputation
    with [TypeError]. *)
Theorem impute_text_total_length_raises (df : DataFrame) (tl : Series) :
  has_column df "FL (mm)" = false ->
  getitem df "TL (mm)" = Returned tl ->
  forallb is_numeric tl = false ->
  impute_fork_length df = Raised TypeError.
Proof.
  intros Hcol Htl Htext.
  unfold impute_fork_length. rewrite Hcol, Htl. simpl.
  unfold series_sub. now rewrite series_map_text.
Qed.

Lemma impute_text_total_length_raises_witness :
  impute_fork_length
    [("TL (mm)"%string, [Num (Fin 300); Str "about 300"])] = Raised TypeError.
Proof.
  apply (impute_text_total_length_raises
           [("TL (mm)"%string, [Num (Fin 300); Str "about 300"])]
           [Num (Fin 300); Str "about 300"]); reflexivity.
Defined.

(** ** The corrector on the ages it is given *)

(** The corrector keeps the order of ages and shrinks their differences by
    the slope. *)
Theorem correction_keeps_order (a b : R) :
  a < b ->
  exists ca cb : R,
    correction_coefficient (Fin a) = Fin ca
    /\ correction_coefficient (Fin b) = Fin cb
    /\ ca < cb
    /\ cb - ca = 0.5910115884370238 * (b - a).
Proof.
  intros Hab. do 2 eexists.
  split; [apply correction_coefficient_fin|].
  split; [apply correction_coefficient_fin|].
  split; lra.
Qed.

Lemma correction_keeps_order_witness :
  exists ca cb : R,
    correction_coefficient (Fin 30) = Fin ca
    /\ correction_coefficient (Fin 40) = Fin cb
    /\ ca < cb
    /\ cb - ca = 0.5910115884370238 * (40 - 30).
Proof.
  apply (correction_keeps_order 30 40). lra.
Defined.

(** Every age the VB functions return is lowered by the corrector. *)
Theorem correction_lowers_every_vb_age (s : sex) (Lt : npfloat) (a : R) :
  fst (vb_age_estimator s Lt) = Fin a ->
  exists c : R, correction_coefficient (Fin a) = Fin c /\ c < a.
Proof.
  intros H.
  assert (Hpos : 0 < a).
  { pose proof (vb_body_value Lt (L_inf s) birth_b (growth_k s)) as Hv.
    rewrite <- estimator_is_body, H in Hv.
    destruct Hv as [Hn|(a' & Ea & Ha)]; [discriminate|].
    injection Ea as ->. exact Ha. }
  eexists. split; [apply correction_coefficient_fin|]. lra.
Qed.

Lemma correction_lowers_every_vb_age_witness :
  exists c : R,
    correction_coefficient (Fin (vb_formula Female 292)) = Fin c
    /\ c < vb_formula Female 292.
Proof.
  apply (correction_lowers_every_vb_age Female (Fin 292)).
  destruct (estimator_closed_form Female 292) as [E _];
    [simpl; lra | simpl; lra |].
  rewrite E. reflexivity.
Defined.

(** The corrected age is positive exactly for the uncorrected ages above
    16.971951358327846 / 0.5910115884370238 (about 28.7 years). *)
Theorem correction_positive_threshold (r : R) :
  (exists c : R, correction_coefficient (Fin r) = Fin c /\ 0 < c)
  <-> 16.971951358327846 / 0.5910115884370238 < r.
Proof.
  rewrite correction_coefficient_fin.
  assert (Hs : 16.971951358327846 / 0.5910115884370238 * 0.5910115884370238
               = 16.971951358327846) by lra.
  split.
  - intros (c & E & Hc). injection E as <-.
    apply (Rmult_lt_reg_r 0.5910115884370238); lra.
  - intros Hr. eexists. split; [reflexivity|].
    apply (Rmult_lt_compat_r 0.5910115884370238) in Hr; lra.
Qed.

(** The two vertebral-aged females come out of the VB function and the
    corrector at their vertebral ages, 16.5 and 11.5 years, up to 1e-6. *)
Theorem reference_specimens_recovered :
  exists c1 c2 : R,
    map correction_coefficient Vertebral_vb_estimation = [Fin c1; Fin c2]
    /\ Rabs (c1 - 16.5) < 0.000001
    /\ Rabs (c2 - 11.5) < 0.000001.
Proof.
  destruct Vertebral_vb_estimation_figures as (a1 & a2 & E & H1 & H2).
  rewrite E. simpl map. rewrite !correction_coefficient_fin.
  do 2 eexists. split; [reflexivity|].
  apply Rabs_def2 in H1. apply Rabs_def2 in H2.
  split; apply Rabs_def1; lra.
Qed.

(** ** The regression cell on any array *)

Lemma finite_values_length (l : list npfloat) (rs : list R) :
  finite_values l = Some rs -> List.length rs = List.length l.
Proof.
  revert rs. induction l as [|x l IH]; simpl; intros rs H.
  - now injection H as <-.
  - destruct x; try discriminate.
    destruct (finite_values l) as [rs'|]; [|discriminate].
    injection H as <-. simpl. now rewrite (IH rs').
Qed.

Lemma finite_values_none (l : list npfloat) :
  finite_values l = None <-> exists x, In x l /\ isfinite x = false.
Proof.
  induction l as [|x l IH]; simpl.
  - split; [discriminate | intros (x & [] & _)].
  - destruct x as [r| | |];
      try (split; [intros _; eexists; split; [left; reflexivity | reflexivity]
                  | reflexivity]).
    destruct (finite_values l) as [rs|].
    + split; [discriminate|].
      intros (x & [<-|Hin] & Hx); [discriminate|].
      assert (Hbad : Some rs = None) by (apply IH; now exists x).
      discriminate Hbad.
    + split; [|reflexivity]. intros _.
      destruct (proj1 IH eq_refl) as (x & Hin & Hx).
      exists x. split; [now right | exact Hx].
Qed.

(** The regression cell fails exactly when its array is empty or holds a
    NaN or an infinity, and then with [ValueError]; a reference specimen at
    or beyond the asymptotic length, whose VB age is the marker, is such a
    case. *)
Theorem fit_correction_failures (array : list (npfloat * npfloat)) :
  ((exists e, fit_correction array = Raised e)
   <-> array = []
       \/ exists p, In p array
            /\ (isfinite (fst p) = false \/ isfinite (snd p) = false))
  /\ (forall e, fit_correction array = Raised e -> e = ValueError).
Proof.
  unfold fit_correction, LinearRegression_fit.
  destruct (finite_values (map snd array)) as [xs|] eqn:Ex.
  - destruct (finite_values (map fst array)) as [ys|] eqn:Ey.
    + pose proof (finite_values_length _ _ Ex) as Lx.
      pose proof (finite_values_length _ _ Ey) as Ly.
      rewrite length_map in Lx, Ly.
      rewrite Lx, Ly, Nat.eqb_refl. simpl. rewrite orb_false_r.
      destruct array as [|p array]; simpl.
      * split; [|intros e H; now injection H].
        split; [now left | intros _; now exists ValueError].
      * split; [|discriminate].
        split; [intros (e & H); discriminate|].
        intros [H|(q & Hin & Hq)]; [discriminate|]. exfalso.
        destruct Hq as [Hq|Hq].
        -- assert (Hn : finite_values (map fst (p :: array)) = None).
           { apply finite_values_none. exists (fst q).
             split; [now apply in_map | exact Hq]. }
           congruence.
        -- assert (Hn : finite_values (map snd (p :: array)) = None).
           { apply finite_values_none. exists (snd q).
             split; [now apply in_map | exact Hq]. }
           congruence.
    + split; [|intros e H; now injection H].
      split; [|intros _; now exists ValueError].
      intros _. right.
      apply finite_values_none in Ey as (y & Hin & Hy).
      apply in_map_iff in Hin as (q & <- & Hq).
      exists q. split; [exact Hq | now left].
  - split; [|intros e H; now injection H].
    split; [|intros _; now exists ValueError].
    intros _. right.
    apply finite_values_none in Ex as (x & Hin & Hx).
    apply in_map_iff in Hin as (q & <- & Hq).
    exists q. split; [exact Hq | now right].
Qed.

Lemma combine_fst_snd (A B : Type) (l : list (A * B)) :
  combine (map fst l) (map snd l) = l.
Proof.
  induction l as [|[a b] l IH]; simpl; [reflexivity|]. now rewrite IH.
Qed.

Lemma fit_on_points (pts : list (R * R)) :
  pts <> [] -> fit_correction (reference_array pts) = Returned (ols_line pts).
Proof.
  intros Hne. unfold fit_correction, reference_array.
  rewrite !map_map. simpl.
  rewrite <- (map_map fst Fin), <- (map_map snd Fin).
  rewrite fit_on_reals.
  - rewrite combine_fst_snd. reflexivity.
  - destruct pts; [contradiction | discriminate].
  - now rewrite !length_map.
Qed.

Lemma rsum_cons (x : R) (l : list R) : rsum (x :: l) = x + rsum l.
Proof. reflexivity. Qed.

Lemma rsum_squares_nonneg (A : Type) (f : A -> R) (l : list A) :
  0 <= rsum (map (fun a => f a * f a) l).
Proof.
  induction l as [|a l IH]; simpl map.
  - unfold rsum; simpl; lra.
  - rewrite rsum_cons. pose proof (Rle_0_sqr (f a)) as H. unfold Rsqr in H. lra.
Qed.

Lemma sq_dev_nonneg (m : R) (xs : list R) : 0 <= sq_dev m xs.
Proof. unfold sq_dev. apply (rsum_squares_nonneg R (fun x => x - m)). Qed.

Lemma sq_dev_zero_all_equal (m : R) (xs : list R) :
  sq_dev m xs = 0 -> forall x, In x xs -> x = m.
Proof.
  induction xs as [|x0 xs IH]; intros H x Hin; [contradiction|].
  unfold sq_dev in H. simpl map in H. rewrite rsum_cons in H.
  fold (sq_dev m xs) in H.
  pose proof (sq_dev_nonneg m xs) as Hrest.
  pose proof (Rle_0_sqr (x0 - m)) as Hsq. unfold Rsqr in Hsq.
  assert (H0 : (x0 - m) * (x0 - m) = 0) by lra.
  assert (Hr : sq_dev m xs = 0) by lra.
  destruct Hin as [<-|Hin].
  - apply Rmult_integral in H0. lra.
  - now apply IH.
Qed.

Lemma co_dev_zero (mx my : R) (pts : list (R * R)) :
  sq_dev mx (map fst pts) = 0 -> co_dev mx my pts = 0.
Proof.
  intros H. pose proof (sq_dev_zero_all_equal mx (map fst pts) H) as Hall.
  clear H. unfold co_dev.
  induction pts as [|[x y] pts IH]; [reflexivity|].
  simpl map. rewrite rsum_cons, IH.
  - rewrite (Hall x) by (left; reflexivity). simpl. ring.
  - intros x' Hin. apply Hall. now right.
Qed.

Lemma rsum_linear (A : Type) (f : A -> R) (a c : R) (l : list A) :
  rsum (map (fun p => a * f p + c) l)
  = a * rsum (map f l) + INR (List.length l) * c.
Proof.
  induction l as [|p l IH].
  - simpl. unfold rsum. simpl. ring.
  - simpl map. rewrite !rsum_cons, IH.
    change (List.length (p :: l)) with (S (List.length l)).
    rewrite S_INR. ring.
Qed.

Lemma rmean_linear (A : Type) (f : A -> R) (a c : R) (l : list A) :
  l <> [] ->
  rmean (map (fun p => a * f p + c) l) = a * rmean (map f l) + c.
Proof.
  intros Hne. unfold rmean. rewrite rsum_linear, !length_map.
  assert (0 < INR (List.length l)).
  { destruct l; [contradiction|]. apply lt_0_INR. simpl. lia. }
  field. lra.
Qed.

(** The residuals of the fitted line: they sum to zero, and they are
    orthogonal to the centred feature. *)
Lemma residuals_sum (s i : R) (pts : list (R * R)) :
  rsum (map (fun p => snd p - (s * fst p + i)) pts)
  = rsum (map snd pts) - s * rsum (map fst pts) - INR (List.length pts) * i.
Proof.
  induction pts as [|p pts IH].
  - unfold rsum. simpl. ring.
  - simpl map. rewrite !rsum_cons, IH.
    change (List.length (p :: pts)) with (S (List.length pts)).
    rewrite S_INR. ring.
Qed.

Lemma residuals_centred (s mx my : R) (pts : list (R * R)) :
  rsum (map (fun p => (snd p - (s * fst p + (my - s * mx))) * (fst p - mx)) pts)
  = co_dev mx my pts - s * sq_dev mx (map fst pts).
Proof.
  unfold co_dev, sq_dev.
  induction pts as [|p pts IH].
  - unfold rsum. simpl. ring.
  - simpl map. rewrite !rsum_cons, IH. ring.
Qed.

Lemma sse_expansion (s i s' i' m : R) (pts : list (R * R)) :
  sse s' i' pts
  = sse s i pts
    - 2 * ((s' - s)
           * rsum (map (fun p => (snd p - (s * fst p + i)) * (fst p - m)) pts)
           + (i' - i + (s' - s) * m)
             * rsum (map (fun p => snd p - (s * fst p + i)) pts))
    + rsum (map (fun p => ((s' - s) * fst p + (i' - i))
                          * ((s' - s) * fst p + (i' - i))) pts).
Proof.
  unfold sse.
  induction pts as [|p pts IH].
  - unfold rsum. simpl. ring.
  - simpl map. rewrite !rsum_cons, IH. ring.
Qed.

Lemma ols_line_normal_equations (pts : list (R * R)) (s i : R) :
  pts <> [] -> ols_line pts = (s, i) ->
  i = rmean (map snd pts) - s * rmean (map fst pts)
  /\ rsum (map (fun p => snd p - (s * fst p + i)) pts) = 0
  /\ rsum (map (fun p => (snd p - (s * fst p + i))
                         * (fst p - rmean (map fst pts))) pts) = 0.
Proof.
  intros Hne H. unfold ols_line in H.
  set (xm := rmean (map fst pts)) in *.
  set (ym := rmean (map snd pts)) in *.
  injection H as Hs Hi.
  assert (Hn : 0 < INR (List.length pts)).
  { destruct pts; [contradiction|]. apply lt_0_INR. simpl. lia. }
  assert (Hi' : i = ym - s * xm) by (rewrite <- Hi, Hs; reflexivity).
  split; [exact Hi'|]. split.
  - rewrite residuals_sum, Hi'. unfold ym, xm, rmean.
    rewrite !length_map. field. lra.
  - rewrite Hi', residuals_centred. rewrite <- Hs.
    destruct (Req_dec_T (sq_dev xm (map fst pts)) 0) as [E|E].
    + rewrite (co_dev_zero xm ym pts E). ring.
    + field. exact E.
Qed.

(** The line the regression cell returns is a least-squares line: no other
    slope and intercept has a smaller sum of squared residuals on the
    array. *)
Theorem fit_minimises_squared_residuals (pts : list (R * R)) (s i : R) :
  fit_correction (reference_array pts) = Returned (s, i) ->
  forall s' i' : R, sse s i pts <= sse s' i' pts.
Proof.
  intros H s' i'.
  assert (Hne : pts <> []).
  { intros ->. discriminate H. }
  rewrite (fit_on_points pts Hne) in H.
  assert (Hline : ols_line pts = (s, i)) by congruence.
  destruct (ols_line_normal_equations pts s i Hne Hline) as (_ & Hsum & Horth).
  rewrite (sse_expansion s i s' i' (rmean (map fst pts)) pts), Hsum, Horth.
  pose proof (rsum_squares_nonneg _
                (fun p : R * R => (s' - s) * fst p + (i' - i)) pts).
  lra.
Qed.

Lemma fit_minimises_squared_residuals_witness :
  sse ((16.5 - 11.5) / (56.635017 - 48.174946))
      ((16.5 + 11.5) / 2
       - (16.5 - 11.5) / (56.635017 - 48.174946)
         * ((56.635017 + 48.174946) / 2))
      [(56.635017, 16.5); (48.174946, 11.5)]
  <= sse 0 14 [(56.635017, 16.5); (48.174946, 11.5)].
Proof.
  apply (fit_minimises_squared_residuals [(56.635017, 16.5); (48.174946, 11.5)]).
  apply (fit_two_points 56.635017 16.5 48.174946 11.5). lra.
Defined.

(** The fitted line passes through the mean point of the array, and its
    residuals sum to zero. *)
Theorem fit_passes_through_mean_point (pts : list (R * R)) (s i : R) :
  fit_correction (reference_array pts) = Returned (s, i) ->
  s * rmean (map fst pts) + i = rmean (map snd pts)
  /\ rsum (map (fun p => snd p - (s * fst p + i)) pts) = 0.
Proof.
  intros H.
  assert (Hne : pts <> []).
  { intros ->. discriminate H. }
  rewrite (fit_on_points pts Hne) in H.
  assert (Hline : ols_line pts = (s, i)) by congruence.
  destruct (ols_line_normal_equations pts s i Hne Hline) as (Hi & Hsum & _).
  split; [lra | exact Hsum].
Qed.

Lemma fit_passes_through_mean_point_witness :
  0 * rmean (map fst [(50, 16.5); (50, 11.5)]) + rmean [16.5; 11.5]
  = rmean (map snd [(50, 16.5); (50, 11.5)])
  /\ rsum (map (fun p => snd p - (0 * fst p + rmean [16.5; 11.5]))
               [(50, 16.5); (50, 11.5)]) = 0.
Proof.
  apply (fit_passes_through_mean_point [(50, 16.5); (50, 11.5)]).
  apply (fit_constant_vb_array 50 [16.5; 11.5]). discriminate.
Defined.

Lemma co_dev_on_line (a c m : R) (xs : list R) :
  co_dev m (a * m + c) (map (fun x => (x, a * x + c)) xs) = a * sq_dev m xs.
Proof.
  unfold co_dev, sq_dev.
  induction xs as [|x xs IH].
  - unfold rsum. simpl. ring.
  - simpl map. rewrite !rsum_cons, IH. simpl. ring.
Qed.

(** Reference specimens that lie on one line, with at least two different
    VB ages among them, get that line back - however many they are. *)
Theorem fit_exact_on_a_line (a c : R) (xs : list R) (x1 x2 : R) :
  In x1 xs -> In x2 xs -> x1 <> x2 ->
  fit_correction (reference_array (map (fun x => (x, a * x + c)) xs))
  = Returned (a, c).
Proof.
  intros H1 H2 Hne.
  assert (Hxs : xs <> []) by (intros ->; contradiction).
  rewrite fit_on_points by (destruct xs; [contradiction | discriminate]).
  unfold ols_line. rewrite !map_map. simpl.
  rewrite map_id.
  rewrite (rmean_linear R (fun x => x) a c xs Hxs), map_id.
  rewrite co_dev_on_line.
  destruct (Req_dec_T (sq_dev (rmean xs) xs) 0) as [E|E].
  - exfalso. apply Hne.
    rewrite (sq_dev_zero_all_equal _ _ E x1 H1).
    now rewrite (sq_dev_zero_all_equal _ _ E x2 H2).
  - f_equal. f_equal; field; exact E.
Qed.

Lemma fit_exact_on_a_line_witness :
  fit_correction
    (reference_array (map (fun x => (x, 0.5 * x + -17)) [40; 50; 60]))
  = Returned (0.5, -17).
Proof.
  apply (fit_exact_on_a_line 0.5 (-17) [40; 50; 60] 40 50).
  - left; reflexivity.
  - right; left; reflexivity.
  - lra.
Defined.

Lemma rsum_permutation (l l' : list R) : Permutation l l' -> rsum l = rsum l'.
Proof.
  induction 1 as [|x l l' _ IH|x y l|l l' l'' _ IH1 _ IH2].
  - reflexivity.
  - rewrite !rsum_cons, IH. reflexivity.
  - rewrite !rsum_cons. ring.
  - now rewrite IH1.
Qed.

Lemma rsum_map_permutation (A : Type) (f : A -> R) (l l' : list A) :
  Permutation l l' -> rsum (map f l) = rsum (map f l').
Proof. intros H. apply rsum_permutation. now apply Permutation_map. Qed.

Lemma ols_line_permutation (pts pts' : list (R * R)) :
  Permutation pts pts' -> ols_line pts = ols_line pts'.
Proof.
  intros H. unfold ols_line.
  assert (Hx : rmean (map fst pts) = rmean (map fst pts')).
  { unfold rmean. rewrite !length_map, (Permutation_length H).
    now rewrite (rsum_map_permutation _ fst pts pts' H). }
  assert (Hy : rmean (map snd pts) = rmean (map snd pts')).
  { unfold rmean. rewrite !length_map, (Permutation_length H).
    now rewrite (rsum_map_permutation _ snd pts pts' H). }
  rewrite <- Hx, <- Hy.
  assert (Hsq : sq_dev (rmean (map fst pts)) (map fst pts)
                = sq_dev (rmean (map fst pts)) (map fst pts')).
  { unfold sq_dev. rewrite !map_map. now apply rsum_map_permutation. }
  assert (Hco : co_dev (rmean (map fst pts)) (rmean (map snd pts)) pts
                = co_dev (rmean (map fst pts)) (rmean (map snd pts)) pts').
  { unfold co_dev. now apply rsum_map_permutation. }
  now rewrite <- Hsq, <- Hco.
Qed.

Lemma fit_not_finite (array : list (npfloat * npfloat)) (p : npfloat * npfloat) :
  In p array -> isfinite (fst p) = false \/ isfinite (snd p) = false ->
  fit_correction array = Raised ValueError.
Proof.
  intros Hin Hp. unfold fit_correction, LinearRegression_fit.
  destruct Hp as [Hp|Hp].
  - assert (Hn : finite_values (map fst array) = None).
    { apply finite_values_none. exists (fst p). split; [now apply in_map|exact Hp]. }
    rewrite Hn. now destruct (finite_values (map snd array)).
  - assert (Hn : finite_values (map snd array) = None).
    { apply finite_values_none. exists (snd p). split; [now apply in_map|exact Hp]. }
    now rewrite Hn.
Qed.

Lemma all_finite_is_reference_array (array : list (npfloat * npfloat)) :
  (forall p, In p array -> isfinite (fst p) = true /\ isfinite (snd p) = true) ->
  exists pts, array = reference_array pts.
Proof.
  induction array as [|[y x] array IH]; intros H.
  - now exists [].
  - destruct IH as [pts ->]; [intros p Hp; apply H; now right|].
    destruct (H (y, x) (or_introl eq_refl)) as [Hy Hx]. simpl in Hy, Hx.
    destruct y as [ry| | |]; try discriminate.
    destruct x as [rx| | |]; try discriminate.
    now exists ((rx, ry) :: pts).
Qed.

(** The order of the reference specimens in the array does not matter:
    any rearrangement of the rows gives the same outcome, line or error. *)
Theorem fit_ignores_row_order (array array' : list (npfloat * npfloat)) :
  Permutation array array' ->
  fit_correction array = fit_correction array'.
Proof.
  intros Hperm.
  destruct (forallb (fun p => isfinite (fst p) && isfinite (snd p)) array)
    eqn:Hall.
  - assert (Hfin : forall p, In p array ->
                     isfinite (fst p) = true /\ isfinite (snd p) = true).
    { intros p Hp. rewrite forallb_forall in Hall.
      apply andb_prop. now apply Hall. }
    destruct (all_finite_is_reference_array array Hfin) as [pts ->].
    apply Permutation_sym, Permutation_map_inv in Hperm as (pts' & -> & Hp).
    fold (reference_array pts').
    destruct pts as [|p pts].
    + apply Permutation_nil in Hp. now subst pts'.
    + rewrite fit_on_points by discriminate.
      rewrite fit_on_points.
      * now rewrite (ols_line_permutation _ _ Hp).
      * intros ->. apply Permutation_sym, Permutation_nil in Hp. discriminate.
  - assert (Hex : exists p, In p array
                    /\ (isfinite (fst p) = false \/ isfinite (snd p) = false)).
    { clear Hperm. induction array as [|q array IH]; [discriminate|].
      simpl in Hall. apply andb_false_iff in Hall as [Hq|Hrest].
      - exists q. split; [now left|]. now apply andb_false_iff in Hq.
      - destruct (IH Hrest) as (p & Hin & Hp). exists p. split; [now right|exact Hp]. }
    destruct Hex as (p & Hin & Hp).
    rewrite (fit_not_finite array p Hin Hp).
    symmetry. apply (fit_not_finite array' p); [|exact Hp].
    now apply (Permutation_in p Hperm).
Qed.

Lemma fit_ignores_row_order_witness :
  fit_correction Vertebral_vb_array
  = fit_correction [(Fin 11.5, Fin 48.174946); (Fin 16.5, Fin 56.635017)].
Proof.
  apply (fit_ignores_row_order Vertebral_vb_array). apply perm_swap.
Defined.

(** ** The whole notebook *)

Lemma mapM_length (A B : Type) (f : A -> outcome B) (l : list A) (bs : list B) :
  mapM f l = Returned bs -> List.length bs = List.length l.
Proof.
  revert bs. induction l as [|a l IH]; simpl; intros bs H.
  - now injection H as <-.
  - destruct (f a) as [b|]; simpl in H; [|discriminate].
    destruct (mapM f l) as [bs'|]; simpl in H; [|discriminate].
    injection H as <-. simpl. now rewrite (IH bs').
Qed.

Lemma mapM_nth (A B : Type) (f : A -> outcome B) (l : list A) (bs : list B) :
  mapM f l = Returned bs ->
  forall i a, nth_error l i = Some a ->
    exists b, f a = Returned b /\ nth_error bs i = Some b.
Proof.
  revert bs. induction l as [|a0 l IH]; simpl; intros bs H i a Hi.
  - destruct i; discriminate.
  - destruct (f a0) as [b0|] eqn:E0; simpl in H; [|discriminate].
    destruct (mapM f l) as [bs'|]; simpl in H; [|discriminate].
    injection H as <-.
    destruct i as [|i]; simpl in *.
    + injection Hi as <-. now exists b0.
    + now apply (IH bs').
Qed.

Lemma mapM_returns (A B : Type) (f : A -> outcome B) (l : list A) :
  (forall a, In a l -> exists b, f a = Returned b) ->
  exists bs, mapM f l = Returned bs.
Proof.
  induction l as [|a l IH]; simpl; intros H.
  - now exists [].
  - destruct (H a (or_introl eq_refl)) as [b ->].
    destruct IH as [bs ->]; [intros a' Ha'; apply H; now right|].
    now exists (b :: bs).
Qed.

Lemma mapM_raises (A B : Type) (f : A -> outcome B) (l : list A) (e : pyexn) :
  (forall a, In a l -> f a = Raised e \/ exists b, f a = Returned b) ->
  (exists a, In a l /\ f a = Raised e) ->
  mapM f l = Raised e.
Proof.
  induction l as [|a l IH]; simpl; intros Hall (a' & Hin & Ha').
  - contradiction.
  - destruct (Hall a (or_introl eq_refl)) as [->|[b Hb]]; [reflexivity|].
    rewrite Hb. simpl.
    rewrite IH; [reflexivity | intros x Hx; apply Hall; now right|].
    destruct Hin as [<-|Hin]; [congruence|]. now exists a'.
Qed.

Lemma mapM_constant (A B : Type) (f : A -> outcome B) (l : list A) (b : B) :
  (forall a, In a l -> f a = Returned b) ->
  mapM f l = Returned (repeat b (List.length l)).
Proof.
  induction l as [|a l IH]; simpl; intros H; [reflexivity|].
  rewrite (H a (or_introl eq_refl)). simpl.
  rewrite IH; [reflexivity|]. intros a' Ha'. apply H. now right.
Qed.

Lemma assoc_iloc (df : DataFrame) (i : nat) (c : string) :
  assoc c (iloc df i)
  = option_map (fun s : Series => nth i s (Num NaN)) (assoc c df).
Proof.
  unfold iloc.
  induction df as [|[c' s'] rest IH]; simpl; [reflexivity|].
  destruct (String.eqb c c'); [reflexivity | exact IH].
Qed.

Lemma getitem_iloc (df : DataFrame) (i : nat) (c : string) (s : Series) :
  getitem df c = Returned s ->
  getitem (iloc df i) c = Returned (nth i s (Num NaN)).
Proof.
  unfold getitem. rewrite assoc_iloc.
  destruct (assoc c df); simpl; congruence.
Qed.

Lemma getitem_iloc_missing (df : DataFrame) (i : nat) (c : string) :
  has_column df c = false -> getitem (iloc df i) c = Raised (KeyError c).
Proof.
  rewrite has_column_assoc. unfold getitem. rewrite assoc_iloc.
  destruct (assoc c df); simpl; [discriminate | reflexivity].
Qed.

Lemma nth_numeric (s : Series) (i : nat) :
  forallb is_numeric s = true -> is_numeric (nth i s (Num NaN)) = true.
Proof.
  revert i. induction s as [|c s IH]; intros i H.
  - destruct i; reflexivity.
  - simpl in H. apply andb_prop in H as [Hc Hs].
    destruct i; simpl; [exact Hc | now apply IH].
Qed.

Lemma reference_fit_returns :
  exists line, fit_correction Vertebral_vb_array = Returned line.
Proof.
  eexists. apply (fit_two_points 56.635017 16.5 48.174946 11.5). lra.
Qed.

Lemma notebook_after_ages (df df1 : DataFrame) (ages : Series) :
  impute_fork_length df = Returned df1 ->
  apply_rows calculate_age df1 = Returned ages ->
  notebook df
  = bind (series_map correction_coefficient ages)
      (fun corrected =>
         Returned (setitem (setitem df1 "Modified VB Age" ages)
                           "Age Corrected Proxy" corrected)).
Proof.
  intros Himp Hages. unfold notebook. rewrite Himp. cbn [bind].
  rewrite Hages. cbn [bind].
  destruct reference_fit_returns as [line ->]. cbn [bind].
  rewrite getitem_setitem_same. reflexivity.
Qed.

Lemma impute_other_column (df df1 : DataFrame) (c : string) :
  impute_fork_length df = Returned df1 ->
  c <> "FL (mm)"%string -> assoc c df1 = assoc c df.
Proof.
  intros H Hne.
  destruct (impute_result df df1 H) as [[_ ->]|[_ [fl ->]]]; [reflexivity|].
  now apply assoc_setitem_other.
Qed.

Lemma apply_rows_ages (df1 : DataFrame) (ages : Series) :
  apply_rows calculate_age df1 = Returned ages ->
  List.length ages = nrows df1
  /\ forallb is_numeric ages = true
  /\ forall i, (i < nrows df1)%nat ->
       exists a, calculate_age (iloc df1 i) = Returned a
                 /\ nth_error ages i = Some (Num a).
Proof.
  unfold apply_rows. intros H.
  pose proof (mapM_length _ _ _ _ _ H) as Hlen. rewrite length_seq in Hlen.
  split; [exact Hlen|]. split.
  - apply forallb_forall. intros c Hc.
    apply In_nth_error in Hc as [i Hi].
    assert (Hlt : (i < nrows df1)%nat).
    { rewrite <- Hlen. apply nth_error_Some. congruence. }
    destruct (mapM_nth _ _ _ _ _ H i i) as (b & Hb & Hnb).
    { rewrite nth_error_nth' with (d := O) by (now rewrite length_seq).
      now rewrite seq_nth. }
    destruct (calculate_age (iloc df1 i)); simpl in Hb; [|discriminate].
    injection Hb as <-. rewrite Hi in Hnb. now injection Hnb as ->.
  - intros i Hlt.
    destruct (mapM_nth _ _ _ _ _ H i i) as (b & Hb & Hnb).
    { rewrite nth_error_nth' with (d := O) by (now rewrite length_seq).
      now rewrite seq_nth. }
    destruct (calculate_age (iloc df1 i)) as [a|]; simpl in Hb; [|discriminate].
    injection Hb as <-. now exists a.
Qed.

Lemma notebook_runs (df df1 : DataFrame) (fl : Series) :
  impute_fork_length df = Returned df1 ->
  has_column df "Sex" = true ->
  getitem df "FL (cm)" = Returned fl ->
  forallb is_numeric fl = true ->
  exists ages corrected : Series,
    notebook df
    = Returned (setitem (setitem df1 "Modified VB Age" ages)
                        "Age Corrected Proxy" corrected)
    /\ List.length ages = nrows df1
    /\ List.length corrected = nrows df1
    /\ forall i, (i < nrows df1)%nat ->
         exists a : npfloat,
           calculate_age (iloc df1 i) = Returned a
           /\ is_age_or_missing a
           /\ nth_error ages i = Some (Num a)
           /\ nth_error corrected i = Some (Num (correction_coefficient a)).
Proof.
  intros Himp Hsex Hfl Hnum.
  assert (Hsex1 : exists sexes, getitem df1 "Sex" = Returned sexes).
  { unfold getitem. rewrite (impute_other_column df df1 "Sex" Himp) by discriminate.
    rewrite has_column_assoc in Hsex.
    destruct (assoc "Sex"%string df) as [sexes|]; [|discriminate].
    now exists sexes. }
  destruct Hsex1 as [sexes Hsexes].
  assert (Hfl1 : getitem df1 "FL (cm)" = Returned fl).
  { unfold getitem in *.
    now rewrite (impute_other_column df df1 "FL (cm)" Himp) by discriminate. }
  assert (Hrow : forall i, exists a, calculate_age (iloc df1 i) = Returned a).
  { intros i. unfold calculate_age.
    rewrite (getitem_iloc df1 i "Sex" sexes Hsexes). simpl.
    rewrite (getitem_iloc df1 i "FL (cm)" fl Hfl1). simpl.
    pose proof (nth_numeric fl i Hnum) as Hn.
    destruct (nth i fl (Num NaN)) as [x|t]; [|discriminate].
    destruct (cell_eq_str (nth i sexes (Num NaN)) "Male");
      [simpl; eexists; reflexivity|].
    destruct (cell_eq_str (nth i sexes (Num NaN)) "Female");
      simpl; eexists; reflexivity. }
  destruct (mapM_returns _ _
              (fun i => x <- calculate_age (iloc df1 i) ;; Returned (Num x))
              (seq 0 (nrows df1))) as [ages Hages].
  { intros i _. destruct (Hrow i) as [a ->]. simpl. now eexists. }
  fold (apply_rows calculate_age df1) in Hages.
  destruct (apply_rows_ages df1 ages Hages) as (Hlen & Hnumeric & Hnth).
  destruct (series_map_numeric correction_coefficient ages Hnumeric)
    as (corrected & Ecorr & Hlenc & _ & Hnthc).
  exists ages, corrected.
  split.
  { rewrite (notebook_after_ages df df1 ages Himp Hages), Ecorr. reflexivity. }
  split; [exact Hlen|]. split; [congruence|].
  intros i Hlt. destruct (Hnth i Hlt) as (a & Ea & Hna).
  exists a. split; [exact Ea|].
  split; [exact (calculate_age_value_ok _ _ Ea)|].
  split; [exact Hna | now apply Hnthc].
Qed.

(** When the notebook runs through.  On a table with at least one row
    whose imputation succeeds and that has a "Sex" column and a numeric
    "FL (cm)" column, the
    notebook returns the table with the two age columns set: one value per
    row, the first the marker or a finite positive age, the second the
    corrector applied to the first. *)
Theorem notebook_completes (df df1 : DataFrame) (fl : Series) :
  impute_fork_length df = Returned df1 ->
  (0 < nrows df1)%nat ->
  has_column df "Sex" = true ->
  getitem df "FL (cm)" = Returned fl ->
  forallb is_numeric fl = true ->
  exists ages corrected : Series,
    notebook df
    = Returned (setitem (setitem df1 "Modified VB Age" ages)
                        "Age Corrected Proxy" corrected)
    /\ List.length ages = nrows df1
    /\ List.length corrected = nrows df1
    /\ forall i, (i < nrows df1)%nat ->
         exists a : npfloat,
           calculate_age (iloc df1 i) = Returned a
           /\ is_age_or_missing a
           /\ nth_error ages i = Some (Num a)
           /\ nth_error corrected i = Some (Num (correction_coefficient a)).
Proof. intros Himp _. exact (notebook_runs df df1 fl Himp). Qed.

Lemma notebook_completes_witness :
  exists ages corrected : Series,
    notebook both_labels
    = Returned (setitem (setitem both_labels "Modified VB Age" ages)
                        "Age Corrected Proxy" corrected)
    /\ List.length ages = nrows both_labels
    /\ List.length corrected = nrows both_labels
    /\ forall i, (i < nrows both_labels)%nat ->
         exists a : npfloat,
           calculate_age (iloc both_labels i) = Returned a
           /\ is_age_or_missing a
           /\ nth_error ages i = Some (Num a)
           /\ nth_error corrected i = Some (Num (correction_coefficient a)).
Proof.
  apply (notebook_completes both_labels both_labels
           [Num (Fin 292); Num (Fin 300); Num (Fin 250)]);
    try reflexivity.
  simpl. lia.
Defined.

Lemma has_column_after_impute (df df1 : DataFrame) (c : string) :
  impute_fork_length df = Returned df1 ->
  c <> "FL (mm)"%string -> has_column df1 c = has_column df c.
Proof.
  intros H Hne. rewrite !has_column_assoc.
  now rewrite (impute_other_column df df1 c H Hne).
Qed.

(** The label mismatch in general.  On a table without a column "FL (cm)",
    one row whose sex is "Male" or "Female" is enough: the notebook stops
    with [KeyError] on "FL (cm)", whatever the imputation produced. *)
Theorem notebook_needs_fork_length_cm
  (df df1 : DataFrame) (sexes : Series) (i : nat) :
  impute_fork_length df = Returned df1 ->
  has_column df "FL (cm)" = false ->
  getitem df "Sex" = Returned sexes ->
  (i < nrows df1)%nat ->
  cell_eq_str (nth i sexes (Num NaN)) "Male" = true
  \/ cell_eq_str (nth i sexes (Num NaN)) "Female" = true ->
  notebook df = Raised (KeyError "FL (cm)").
Proof.
  intros Himp Hfl Hsex Hlt Hi.
  assert (Hfl1 : has_column df1 "FL (cm)" = false).
  { now rewrite (has_column_after_impute df df1 "FL (cm)" Himp) by discriminate. }
  assert (Hsex1 : getitem df1 "Sex" = Returned sexes).
  { unfold getitem in *.
    now rewrite (impute_other_column df df1 "Sex" Himp) by discriminate. }
  assert (Hrow : forall j,
             calculate_age (iloc df1 j)
             = if cell_eq_str (nth j sexes (Num NaN)) "Male"
                  || cell_eq_str (nth j sexes (Num NaN)) "Female"
               then Raised (KeyError "FL (cm)") else Returned NaN).
  { intros j. unfold calculate_age.
    rewrite (getitem_iloc df1 j "Sex" sexes Hsex1). cbn [bind].
    rewrite (getitem_iloc_missing df1 j "FL (cm)" Hfl1). cbn [bind].
    destruct (cell_eq_str (nth j sexes (Num NaN)) "Male"); [reflexivity|].
    destruct (cell_eq_str (nth j sexes (Num NaN)) "Female"); reflexivity. }
  assert (Hages : apply_rows calculate_age df1 = Raised (KeyError "FL (cm)")).
  { unfold apply_rows. apply mapM_raises.
    - intros j _. rewrite Hrow.
      destruct (_ || _); [now left | right; now eexists].
    - exists i. split; [apply in_seq; lia|].
      rewrite Hrow. destruct Hi as [-> | ->]; [reflexivity|].
      now rewrite orb_true_r. }
  unfold notebook. rewrite Himp. cbn [bind]. now rewrite Hages.
Qed.

Lemma notebook_needs_fork_length_cm_witness :
  notebook
    [("Sex"%string, [Str "Unknown"; Str "Male"]);
     ("FL (mm)"%string, [Num (Fin 250); Num (Fin 200)])]
  = Raised (KeyError "FL (cm)").
Proof.
  apply (notebook_needs_fork_length_cm
           [("Sex"%string, [Str "Unknown"; Str "Male"]);
            ("FL (mm)"%string, [Num (Fin 250); Num (Fin 200)])]
           [("Sex"%string, [Str "Unknown"; Str "Male"]);
            ("FL (mm)"%string, [Num (Fin 250); Num (Fin 200)])]
           [Str "Unknown"; Str "Male"] 1).
  - reflexivity.
  - reflexivity.
  - reflexivity.
  - simpl. lia.
  - left. reflexivity.
Defined.

Lemma series_map_markers (n : nat) :
  series_map correction_coefficient (repeat (Num NaN) n)
  = Returned (repeat (Num NaN) n).
Proof.
  unfold series_map.
  induction n as [|n IH]; simpl; [reflexivity|]. now rewrite IH.
Qed.

(** A table with at least one row, in which no row is "Male" or "Female",
    runs through without a fork length being read: both age columns hold
    the marker in every row. *)
Theorem notebook_unknown_sex_only (df df1 : DataFrame) (sexes : Series) :
  impute_fork_length df = Returned df1 ->
  (0 < nrows df1)%nat ->
  getitem df "Sex" = Returned sexes ->
  (forall c, In c sexes ->
     cell_eq_str c "Male" = false /\ cell_eq_str c "Female" = false) ->
  notebook df
  = Returned (setitem (setitem df1 "Modified VB Age"
                               (repeat (Num NaN) (nrows df1)))
                      "Age Corrected Proxy" (repeat (Num NaN) (nrows df1))).
Proof.
  intros Himp _ Hsex Hunknown.
  assert (Hsex1 : getitem df1 "Sex" = Returned sexes).
  { unfold getitem in *.
    now rewrite (impute_other_column df df1 "Sex" Himp) by discriminate. }
  assert (Hages : apply_rows calculate_age df1
                  = Returned (repeat (Num NaN) (nrows df1))).
  { unfold apply_rows.
    replace (repeat (Num NaN) (nrows df1))
      with (repeat (Num NaN) (List.length (seq 0 (nrows df1))))
      by (now rewrite length_seq).
    apply mapM_constant. intros j _. unfold calculate_age.
    rewrite (getitem_iloc df1 j "Sex" sexes Hsex1). cbn [bind].
    assert (Hj : cell_eq_str (nth j sexes (Num NaN)) "Male" = false
                 /\ cell_eq_str (nth j sexes (Num NaN)) "Female" = false).
    { destruct (nth_in_or_default j sexes (Num NaN)) as [Hin| ->];
        [now apply Hunknown | split; reflexivity]. }
    destruct Hj as [-> ->]. reflexivity. }
  rewrite (notebook_after_ages df df1 _ Himp Hages), series_map_markers.
  reflexivity.
Qed.

Lemma notebook_unknown_sex_only_witness :
  notebook
    [("Sex"%string, [Str "Unknown"; Num NaN]);
     ("FL (mm)"%string, [Num (Fin 250); Num (Fin 200)])]
  = Returned
      [("Sex"%string, [Str "Unknown"; Num NaN]);
       ("FL (mm)"%string, [Num (Fin 250); Num (Fin 200)]);
       ("Modified VB Age"%string, [Num NaN; Num NaN]);
       ("Age Corrected Proxy"%string, [Num NaN; Num NaN])].
Proof.
  apply (notebook_unknown_sex_only
           [("Sex"%string, [Str "Unknown"; Num NaN]);
            ("FL (mm)"%string, [Num (Fin 250); Num (Fin 200)])]
           [("Sex"%string, [Str "Unknown"; Num NaN]);
            ("FL (mm)"%string, [Num (Fin 250); Num (Fin 200)])]
           [Str "Unknown"; Num NaN]).
  - reflexivity.
  - simpl. lia.
  - reflexivity.
  - intros c [<-|[<-|[]]]; split; reflexivity.
Defined.

Lemma nrows_setitem (df : DataFrame) (c : string) (s : Series) :
  df <> [] ->
  has_column df c = false \/ List.length s = nrows df ->
  nrows (setitem df c s) = nrows df.
Proof.
  destruct df as [|[c0 s0] rest]; [contradiction|]. intros _ H. simpl.
  destruct (String.eqb c c0) eqn:E; [|reflexivity].
  destruct H as [H|H]; [|exact H].
  unfold has_column in H. simpl in H. rewrite E in H. discriminate.
Qed.

Lemma setitem_not_nil (df : DataFrame) (c : string) (s : Series) :
  setitem df c s <> [].
Proof.
  destruct df as [|[c0 s0] rest]; simpl; [discriminate|].
  destruct (String.eqb c c0); discriminate.
Qed.

Lemma impute_nrows (df df1 : DataFrame) :
  impute_fork_length df = Returned df1 -> df1 <> [] /\ nrows df1 = nrows df.
Proof.
  intros H.
  destruct (impute_result df df1 H) as [[Hc ->]|[Hc [fl ->]]].
  - split; [|reflexivity]. intros ->. discriminate.
  - split; [apply setitem_not_nil|].
    apply nrows_setitem; [|now left].
    intros ->. discriminate H.
Qed.

Lemma notebook_inversion (df out : DataFrame) :
  notebook df = Returned out ->
  exists df1 ages corrected,
    impute_fork_length df = Returned df1
    /\ apply_rows calculate_age df1 = Returned ages
    /\ series_map correction_coefficient ages = Returned corrected
    /\ out = setitem (setitem df1 "Modified VB Age" ages)
                     "Age Corrected Proxy" corrected.
Proof.
  intros H.
  destruct (impute_fork_length df) as [df1|] eqn:Himp;
    [|unfold notebook in H; rewrite Himp in H; discriminate].
  destruct (apply_rows calculate_age df1) as [ages|] eqn:Hages;
    [|unfold notebook in H; rewrite Himp in H; cbn [bind] in H;
      rewrite Hages in H; discriminate].
  rewrite (notebook_after_ages df df1 ages Himp Hages) in H.
  destruct (series_map correction_coefficient ages) as [corrected|] eqn:Hc;
    [|discriminate].
  cbn [bind] in H. injection H as <-.
  now exists df1, ages, corrected.
Qed.

(** What a finished run on a table with at least one row leaves of its
    input: the same number of rows, and
    every column other than "FL (mm)" and the two age columns exactly as
    it was; the three columns are there afterwards. *)
Theorem notebook_keeps_the_table (df out : DataFrame) :
  (0 < nrows df)%nat ->
  notebook df = Returned out ->
  nrows out = nrows df
  /\ (forall c, c <> "FL (mm)"%string -> c <> "Modified VB Age"%string ->
        c <> "Age Corrected Proxy"%string ->
        getitem out c = getitem df c)
  /\ has_column out "FL (mm)" = true
  /\ has_column out "Modified VB Age" = true
  /\ has_column out "Age Corrected Proxy" = true.
Proof.
  intros _ H.
  destruct (notebook_inversion df out H)
    as (df1 & ages & corrected & Himp & Hages & Hcorr & ->).
  destruct (impute_nrows df df1 Himp) as [Hne Hrows].
  destruct (apply_rows_ages df1 ages Hages) as (Hlen & Hnum & _).
  destruct (series_map_numeric correction_coefficient ages Hnum)
    as (corrected' & Ecorr & Hlenc & _ & _).
  assert (corrected' = corrected) as -> by congruence.
  split; [|split; [|split; [|split]]].
  - rewrite nrows_setitem.
    + rewrite nrows_setitem; [exact Hrows | exact Hne | now right].
    + apply setitem_not_nil.
    + right. rewrite nrows_setitem; [congruence | exact Hne | now right].
  - intros c H1 H2 H3. unfold getitem.
    rewrite !assoc_setitem_other by assumption.
    now rewrite (impute_other_column df df1 c Himp H1).
  - rewrite !has_column_assoc, !assoc_setitem_other by discriminate.
    rewrite <- has_column_assoc.
    destruct (impute_result df df1 Himp) as [[Hc ->]|[_ [fl ->]]];
      [exact Hc | apply has_column_setitem_same].
  - rewrite has_column_assoc, assoc_setitem_other by discriminate.
    rewrite <- has_column_assoc. apply has_column_setitem_same.
  - apply has_column_setitem_same.
Qed.

Lemma notebook_keeps_the_table_witness :
  exists out,
    notebook both_labels = Returned out
    /\ nrows out = 3%nat
    /\ getitem out "Sex" = Returned [Str "Female"; Str "Male"; Str "Unknown"]
    /\ getitem out "FL (cm)"
       = Returned [Num (Fin 292); Num (Fin 300); Num (Fin 250)].
Proof.
  destruct (notebook_runs both_labels both_labels
              [Num (Fin 292); Num (Fin 300); Num (Fin 250)]
              eq_refl eq_refl eq_refl eq_refl)
    as (ages & corrected & E & _).
  eexists. split; [exact E|].
  assert (Hpos : (0 < nrows both_labels)%nat) by (simpl; lia).
  destruct (notebook_keeps_the_table both_labels _ Hpos E) as (Hrows & Hget & _).
  split; [exact Hrows|].
  split; (rewrite Hget; [reflexivity | discriminate ..]).
Defined.

Lemma calculate_age_reads_two_labels (row row' : Row) :
  assoc "Sex"%string row = assoc "Sex"%string row' ->
  assoc "FL (cm)"%string row = assoc "FL (cm)"%string row' ->
  calculate_age row = calculate_age row'.
Proof.
  intros Hs Hf. unfold calculate_age, getitem. now rewrite Hs, Hf.
Qed.

(** The imputed fork length is never used: for every row, [calculate_age]
    gives on the imputed table what it gives on the table as read, so the
    ages depend on "Sex" and "FL (cm)" only - not on the total length and
    not on "FL (mm)". *)
Theorem imputed_length_is_never_read (df df1 : DataFrame) (i : nat) :
  impute_fork_length df = Returned df1 ->
  calculate_age (iloc df1 i) = calculate_age (iloc df i).
Proof.
  intros Himp. apply calculate_age_reads_two_labels; rewrite !assoc_iloc.
  - now rewrite (impute_other_column df df1 "Sex" Himp) by discriminate.
  - now rewrite (impute_other_column df df1 "FL (cm)" Himp) by discriminate.
Qed.

Lemma imputed_length_is_never_read_witness :
  exists df1,
    impute_fork_length total_length_only = Returned df1
    /\ calculate_age (iloc df1 0) = calculate_age (iloc total_length_only 0).
Proof.
  destruct (impute_fork_length total_length_only) as [df1|e] eqn:E;
    [|discriminate E].
  exists df1. split; [reflexivity|].
  exact (imputed_length_is_never_read total_length_only df1 0 E).
Defined.
